(** * Sintetizador de Escenas 360: angle cache, sweep orchestration, viewer scrubbing

    A shallow embedding of the TypeScript sources
      - [types.ts]               (SceneImage, AppState)
      - [services/geminiService.ts] (getAngleDescription, response handling)
      - [App.tsx]                (the upload / resolve / sweep / enhance handlers)
      - [components/ImageDisplay.tsx] (drag-to-scrub)
      - [components/KnobControl.tsx]  (calculateAngle)
    followed by the properties of the angle cache and of the viewer.

    Conventions.
      - Angles held in the application state are always integers (they come
        from the literal 0, from the literal sweep angles, or from
        [Math.round] in the knob), so [SceneImage.angle] is a [Z].
      - [getAngleDescription] is a function of an arbitrary number; it is
        modelled on [Q] (every finite double is a rational), with the one
        rounding it performs kept as a parameter.
      - [Math.atan2] is transcendental; the knob geometry lives in [R].
      - The remote model is a script of outcomes indexed by the number of
        remote calls already made; every call is logged in a trace.
      - A handler runs atomically: the UI disables its triggers while a
        request is in flight. *)

From Stdlib Require Import ZArith QArith Qround Qminmax Bool List String Ascii Lia Psatz.
From Stdlib Require Import Sorting.Sorted.
From Stdlib Require Import Reals Zfloor.
From Stdlib Require Import DecimalString DecimalZ.
Import ListNotations.

Local Open Scope string_scope.
Local Open Scope Z_scope.

(** ** types.ts *)

Module Types.

(** [interface SceneImage].  [id] is the opaque token returned by
    [crypto.randomUUID()]; tokens are drawn from a counter. *)
Record SceneImage : Type := mkSceneImage {
  id : nat;
  data : string;
  mimeType : string;
  angle : Z;
  isOriginal : bool
}.

Inductive AppState : Type :=
| IDLE | UPLOADING | READY | GENERATING | GENERATING_SEQUENCE | ANALYZING | ERROR.


End Types.
Export Types.

(** ** JavaScript number helpers *)

Module JS.

(** [a % n] on integers: the remainder takes the sign of the dividend. *)
Definition rem (a n : Z) : Z := Z.rem a n.

(** Truncation of a rational towards zero. *)
Definition Qtrunc (q : Q) : Z :=
  if Qle_bool 0 q then Qfloor q else Qceiling q.

(** [a % n] on numbers: [a - n * trunc (a / n)], exact in IEEE arithmetic. *)
Definition Qrem (a n : Q) : Q := (a - n * inject_Z (Qtrunc (a / n)))%Q.

(** [Math.floor (a / b)] for integers [a] and a positive integer [b]. *)
Definition floor_div (a b : Z) : Z := a / b.

(** [arr[i]]: [undefined] outside the array. *)
Definition index {A : Type} (arr : list A) (i : Z) : option A :=
  if i <? 0 then None else nth_error arr (Z.to_nat i).

(** [arr.find(p)]. *)
Definition find {A : Type} (p : A -> bool) (arr : list A) : option A :=
  List.find p arr.

(** [arr.findIndex(p)], [-1] when no element satisfies [p]. *)
Fixpoint findIndex_from {A : Type} (p : A -> bool) (arr : list A) (i : Z) : Z :=
  match arr with
  | [] => -1
  | x :: rest => if p x then i else findIndex_from p rest (i + 1)
  end.

Definition findIndex {A : Type} (p : A -> bool) (arr : list A) : Z :=
  findIndex_from p arr 0.

(** [`${n}`] for an integer [n] below 10^21 in magnitude: its decimal
    digits, with a sign if negative. *)
Definition show (n : Z) : string := NilZero.string_of_int (Z.to_int n).

(** [s || d] on strings: the empty string is falsy. *)
Definition or_default (s d : string) : string :=
  match s with EmptyString => d | _ => s end.

(** [[...arr].sort((a, b) => key a - key b)]: a stable sort by [key]. *)
Section Sort.
Context {A : Type} (key : A -> Z).

Fixpoint insert (x : A) (l : list A) : list A :=
  match l with
  | [] => [x]
  | y :: rest => if key x <=? key y then x :: l else y :: insert x rest
  end.

Fixpoint sort (l : list A) : list A :=
  match l with
  | [] => []
  | x :: rest => insert x (sort rest)
  end.
End Sort.

End JS.

(** ** services/geminiService.ts *)

Module GeminiService.

(** The five strings [getAngleDescription] can build.  [Oblicuo a] stands
    for the template [Ángulo oblicuo ${angle}°.] *)
Inductive AngleDescription : Type :=
| Frente            (* "Frente (0°). Cámara frontal." *)
| PerfilDerecho     (* "Perfil Derecho (90°). Cámara a la derecha del sujeto." *)
| Espalda           (* "Espalda (180°). Cámara detrás del sujeto." *)
| PerfilIzquierdo   (* "Perfil Izquierdo (270°). Cámara a la izquierda del sujeto." *)
| Oblicuo (angle : Q).

Definition cardinalTexts : list string :=
  [ "Frente (0°). Cámara frontal.";
    "Perfil Derecho (90°). Cámara a la derecha del sujeto.";
    "Espalda (180°). Cámara detrás del sujeto.";
    "Perfil Izquierdo (270°). Cámara a la izquierda del sujeto." ].

(** The string behind a description; [show] prints the number in the template. *)
Definition descriptionText (show : Q -> string) (d : AngleDescription) : string :=
  match d with
  | Frente => "Frente (0°). Cámara frontal."
  | PerfilDerecho => "Perfil Derecho (90°). Cámara a la derecha del sujeto."
  | Espalda => "Espalda (180°). Cámara detrás del sujeto."
  | PerfilIzquierdo => "Perfil Izquierdo (270°). Cámara a la izquierda del sujeto."
  | Oblicuo angle => "Ángulo oblicuo " ++ show angle ++ "°."
  end.

Definition Qge_bool (a b : Q) : bool := Qle_bool b a.
Definition Qlt_bool (a b : Q) : bool := negb (Qle_bool b a).

Section Rounding.
(** [fl] is the rounding applied to the sum [angle % 360 + 360]; the two
    remainders are exact. *)
Variable fl : Q -> Q.

Definition normAngle (angle : Q) : Q :=
  JS.Qrem (fl (JS.Qrem angle 360 + 360)) 360.

Definition getAngleDescription (angle : Q) : AngleDescription :=
  let normAngle := normAngle angle in
  if Qge_bool normAngle 315 || Qlt_bool normAngle 45 then Frente
  else if Qge_bool normAngle 45 && Qlt_bool normAngle 135 then PerfilDerecho
  else if Qge_bool normAngle 135 && Qlt_bool normAngle 225 then Espalda
  else if Qge_bool normAngle 225 && Qlt_bool normAngle 315 then PerfilIzquierdo
  else Oblicuo angle.
End Rounding.

(** Integer angles below 2^53 are added without rounding. *)
Definition exact : Q -> Q := fun q => q.

(** *** The remote collaborator *)

Inductive EditInstructions : Type :=
| ChromaKey                          (* enhancementType === "BACKGROUND_REMOVAL" *)
| TipoDeMejora (enhancementType : string).

(** The text part of a request.  A constructor stands for the constant
    text of the template literal, its arguments for the interpolations. *)
Inductive Prompt : Type :=
| AnalysisPrompt
| EditPrompt (context : string) (specificInstructions : EditInstructions)
| OrbitalPrompt (angleDesc : AngleDescription) (additionalContext : string).

Record GenerateContentRequest : Type := mkRequest {
  model : string;
  prompt : Prompt;
  inline_mimeType : string;
  inline_data : string
}.

Record Part : Type := mkPart {
  inlineData : option string;        (* part.inlineData.data *)
  text : option string
}.

Record Candidate : Type := mkCandidate {
  finishReason : option string;
  parts : option (list Part)         (* candidate.content && candidate.content.parts *)
}.

Record GenerateContentResponse : Type := mkResponse {
  blockReason : option string;       (* promptFeedback && promptFeedback.blockReason *)
  candidates : option (list Candidate);
  response_text : option string      (* response.text *)
}.

Inductive RemoteOutcome : Type :=
| Rejected (message : string)
| Resolved (response : GenerateContentResponse).

Inductive Event : Type :=
| Delay (ms : Z)
| GenerateContent (req : GenerateContentRequest).

(** Everything outside the page: the remote script, the log of what the
    page did, and the token counter behind [crypto.randomUUID()]. *)
Record World : Type := mkWorld {
  remote : nat -> RemoteOutcome;
  trace : list Event;
  uuids : nat
}.

Definition is_call (e : Event) : bool :=
  match e with GenerateContent _ => true | Delay _ => false end.

Definition ncalls (t : list Event) : nat := List.length (List.filter is_call t).

Definition log (e : Event) (w : World) : World :=
  mkWorld (remote w) (trace w ++ [e]) (uuids w).

(** [await new Promise(r => setTimeout(r, ms))] *)
Definition sleep (ms : Z) (w : World) : World := log (Delay ms) w.

(** [await ai.models.generateContent(...)] *)
Definition generateContent (req : GenerateContentRequest) (w : World)
  : RemoteOutcome * World :=
  (remote w (ncalls (trace w)), log (GenerateContent req) w).

(** [crypto.randomUUID()] *)
Definition randomUUID (w : World) : nat * World :=
  (uuids w, mkWorld (remote w) (trace w) (S (uuids w))).

(** A promise settles with a value or with an [Error] carrying a message. *)
Inductive Result (A : Type) : Type :=
| Ok (value : A)
| Throw (message : string).
Arguments Ok {A} value.
Arguments Throw {A} message.

Definition truthy (o : option string) : option string :=
  match o with
  | Some EmptyString => None
  | other => other
  end.

Definition dquote : string := String "034"%char EmptyString.
Definition marker : string := "base64,".

(** [data.includes('base64,') ? data.split('base64,')[1] : data] *)
Definition base64Data (data : string) : string :=
  match String.index 0 marker data with
  | None => data
  | Some i =>
      let from := (i + String.length marker)%nat in
      let rest := String.substring from (String.length data - from) data in
      match String.index 0 marker rest with
      | None => rest
      | Some j => String.substring 0 j rest
      end
  end.

(** The loop over [candidate.content.parts]: the first inline image ends
    it, text parts are accumulated. *)
Fixpoint scan_parts (ps : list Part) (textResponse : string) : string + string :=
  match ps with
  | [] => inr textResponse
  | part :: rest =>
      match inlineData part with
      | Some d => inl ("data:image/png;base64," ++ d)
      | None =>
          match truthy (text part) with
          | Some t => scan_parts rest (textResponse ++ t)
          | None => scan_parts rest textResponse
          end
      end
  end.

Definition scan_candidate (candidate : Candidate) : string + string :=
  match parts candidate with
  | Some ps => scan_parts ps ""
  | None => inr ""
  end.

(** The body of [generateSceneFromAngle] after the awaited response.
    [substring] counts bytes here and UTF-16 units in the source. *)
Definition readSceneResponse (response : GenerateContentResponse) : Result string :=
  match truthy (blockReason response) with
  | Some reason => Throw ("Bloqueo de seguridad (Prompt): " ++ reason)
  | None =>
      match candidates response with
      | None | Some [] => Throw "La IA no devolvió ningún resultado."
      | Some (candidate :: _) =>
          match truthy (finishReason candidate) with
          | Some "SAFETY" => Throw "La generación se detuvo por motivos de seguridad."
          | _ =>
              match scan_candidate candidate with
              | inl dataUrl => Ok dataUrl
              | inr EmptyString =>
                  Throw "La respuesta de la IA fue válida pero no contenía imagen."
              | inr textResponse =>
                  Throw ("La IA respondió con texto: " ++ dquote
                         ++ String.substring 0 150 textResponse ++ "..." ++ dquote)
              end
          end
      end
  end.

(** The body of [enhanceImage] after the awaited response. *)
Definition readEnhanceResponse (response : GenerateContentResponse) : Result string :=
  match truthy (blockReason response) with
  | Some reason => Throw ("Bloqueo de seguridad: " ++ reason)
  | None =>
      match candidates response with
      | None | Some [] => Throw "La IA no devolvió resultados."
      | Some (candidate :: _) =>
          match scan_candidate candidate with
          | inl dataUrl => Ok dataUrl
          | inr EmptyString => Throw "Respuesta inválida de la IA."
          | inr textResponse =>
              Throw ("La IA respondió con texto: " ++ dquote
                     ++ String.substring 0 100 textResponse ++ "..." ++ dquote)
          end
      end
  end.

(** [catch (error) { throw new Error(error.message || fallback) }] *)
Definition rethrow {A : Type} (fallback : string) (r : Result A) : Result A :=
  match r with
  | Ok v => Ok v
  | Throw m => Throw (JS.or_default m fallback)
  end.

Definition settle {A : Type} (read : GenerateContentResponse -> Result A)
           (o : RemoteOutcome) : Result A :=
  match o with
  | Rejected m => Throw m
  | Resolved response => read response
  end.

Definition sceneRequest (originalImage : SceneImage) (targetAngle : Z)
           (additionalContext : string) : GenerateContentRequest :=
  mkRequest "gemini-2.5-flash-image"
            (OrbitalPrompt (getAngleDescription exact (inject_Z targetAngle))
                           additionalContext)
            (mimeType originalImage) (base64Data (data originalImage)).

Definition generateSceneFromAngle (originalImage : SceneImage) (targetAngle : Z)
           (additionalContext : string) (w : World) : Result string * World :=
  let '(outcome, w1) :=
    generateContent (sceneRequest originalImage targetAngle additionalContext) w in
  (rethrow "Error de conexión o generación." (settle readSceneResponse outcome), w1).

Definition enhanceRequest (originalImage : SceneImage) (enhancementType : string)
           (context : string) : GenerateContentRequest :=
  mkRequest "gemini-2.5-flash-image"
            (EditPrompt context
               (if String.eqb enhancementType "BACKGROUND_REMOVAL"
                then ChromaKey else TipoDeMejora enhancementType))
            (mimeType originalImage) (base64Data (data originalImage)).

Definition enhanceImage (originalImage : SceneImage) (enhancementType : string)
           (context : string) (w : World) : Result string * World :=
  let '(outcome, w1) :=
    generateContent (enhanceRequest originalImage enhancementType context) w in
  (rethrow "Error al mejorar la imagen." (settle readEnhanceResponse outcome), w1).

(** [analyzeImage]: no [try] of its own. *)
Definition analyzeImage (image : SceneImage) (w : World) : Result string * World :=
  let '(outcome, w1) :=
    generateContent (mkRequest "gemini-2.5-flash" AnalysisPrompt
                               (mimeType image) (base64Data (data image))) w in
  (settle (fun response =>
             Ok (match truthy (response_text response) with
                 | Some t => t
                 | None => "No se pudo analizar la imagen."
                 end)) outcome, w1).

End GeminiService.

(** ** App.tsx *)

Module App.
Import GeminiService.

(** The [useState] cells of the [App] component. *)
Record State : Type := mkState {
  appState : AppState;
  originalImage : option SceneImage;
  currentImage : option SceneImage;
  sequenceImages : list SceneImage;
  targetAngle : Z;
  error : option string;
  contextPrompt : string
}.

Definition initial : State := mkState IDLE None None [] 0 None "".

Definition setAppState (v : AppState) (s : State) : State :=
  mkState v (originalImage s) (currentImage s) (sequenceImages s)
          (targetAngle s) (error s) (contextPrompt s).
Definition setOriginalImage (v : option SceneImage) (s : State) : State :=
  mkState (appState s) v (currentImage s) (sequenceImages s)
          (targetAngle s) (error s) (contextPrompt s).
Definition setCurrentImage (v : option SceneImage) (s : State) : State :=
  mkState (appState s) (originalImage s) v (sequenceImages s)
          (targetAngle s) (error s) (contextPrompt s).
Definition setSequenceImages (v : list SceneImage) (s : State) : State :=
  mkState (appState s) (originalImage s) (currentImage s) v
          (targetAngle s) (error s) (contextPrompt s).
Definition setTargetAngle (v : Z) (s : State) : State :=
  mkState (appState s) (originalImage s) (currentImage s) (sequenceImages s)
          v (error s) (contextPrompt s).
Definition setError (v : option string) (s : State) : State :=
  mkState (appState s) (originalImage s) (currentImage s) (sequenceImages s)
          (targetAngle s) v (contextPrompt s).
Definition setContextPrompt (v : string) (s : State) : State :=
  mkState (appState s) (originalImage s) (currentImage s) (sequenceImages s)
          (targetAngle s) (error s) v.

(** What the handlers read of a [File]. *)
Record File : Type := mkFile {
  size : Z;
  type : string
}.

(** [[...l].sort((a, b) => a.angle - b.angle)] *)
Definition sortByAngle (l : list SceneImage) : list SceneImage := JS.sort angle l.

(** [handleFileChange], up to [reader.readAsDataURL(file)]. *)
Definition handleFileChange (file : option File) (s : State) : State :=
  match file with
  | None => s
  | Some f =>
      if size f >? 5 * 1024 * 1024
      then setError
             (Some "El archivo es demasiado grande. Por favor usa una imagen menor a 5MB.") s
      else setSequenceImages [] (setError None (setAppState UPLOADING s))
  end.

(** [reader.onloadend] of that upload; [base64] is [reader.result]. *)
Definition onloadend (f : File) (base64 : string) (s : State) (w : World)
  : State * World :=
  let '(uuid, w1) := randomUUID w in
  let newImage := mkSceneImage uuid base64 (type f) 0 true in
  (setAppState READY
     (setTargetAngle 0
        (setSequenceImages [newImage]
           (setCurrentImage (Some newImage)
              (setOriginalImage (Some newImage) s)))), w1).

Definition handleAutoContext (s : State) (w : World) : State * World :=
  match originalImage s with
  | None => (s, w)
  | Some original =>
      let s1 := setAppState ANALYZING s in
      let '(r, w1) := analyzeImage original w in
      match r with
      | Ok description => (setAppState READY (setContextPrompt description s1), w1)
      | Throw _ =>
          (setAppState READY
             (setError (Some "No se pudo analizar la imagen automáticamente.") s1), w1)
      end
  end.

(** [Math.abs(img.angle - currentImage.angle) < 1] *)
Definition sameAngle (current img : SceneImage) : bool :=
  Z.abs (angle img - angle current) <? 1.

(** The tail shared by [handleEnhancement] and [handleRemoveBackground],
    from the awaited [enhanceImage] on.  [s0] is the state the handler
    closed over, [s1] the state after its first setters. *)
Definition enhanceWith (enhancementType : string) (current : SceneImage)
           (s0 s1 : State) (w : World) : State * World :=
  let '(r, w1) := enhanceImage current enhancementType (contextPrompt s0) w in
  match r with
  | Ok dataUrl =>
      let '(uuid, w2) := randomUUID w1 in
      let newImage := mkSceneImage uuid dataUrl "image/png" (angle current) false in
      let s2 := setCurrentImage (Some newImage) s1 in
      let s3 :=
        if (0 <? List.length (sequenceImages s0))%nat
        then setSequenceImages
               (List.map (fun img => if sameAngle current img then newImage else img)
                         (sequenceImages s0)) s2
        else s2 in
      (setAppState READY s3, w2)
  | Throw message => (setAppState ERROR (setError (Some message) s1), w1)
  end.

Definition handleEnhancement (enhancementType label : string) (s : State) (w : World)
  : State * World :=
  match currentImage s with
  | None => (s, w)
  | Some current =>
      enhanceWith enhancementType current s (setError None (setAppState GENERATING s)) w
  end.

Definition handleRemoveBackground (s : State) (w : World) : State * World :=
  match currentImage s with
  | None => (s, w)
  | Some current =>
      enhanceWith "BACKGROUND_REMOVAL" current s (setAppState GENERATING s) w
  end.

Definition angles : list Z := [0; 45; 90; 135; 180; 225; 270; 315].

(** The [for (const angle of angles)] loop of [handleGenerateSequence].
    It returns the message of the exception that left it, if any. *)
Fixpoint sweep (original : SceneImage) (context : string) (todo : list Z)
         (newSequence : list SceneImage) (s : State) (w : World)
  : option string * State * World :=
  match todo with
  | [] => (None, s, w)
  | angle :: rest =>
      if angle =? 0 then sweep original context rest newSequence s w
      else
        let w1 := sleep 500 w in
        let '(r, w2) := generateSceneFromAngle original angle context w1 in
        match r with
        | Throw message => (Some message, s, w2)
        | Ok dataUrl =>
            let '(uuid, w3) := randomUUID w2 in
            let newSequence' :=
              (newSequence ++ [mkSceneImage uuid dataUrl "image/png" angle false])%list in
            sweep original context rest newSequence'
                  (setSequenceImages (sortByAngle newSequence') s) w3
        end
  end.

Definition handleGenerateSequence (s : State) (w : World) : State * World :=
  match originalImage s with
  | None => (s, w)
  | Some original =>
      let s1 := setError None (setAppState GENERATING_SEQUENCE s) in
      match sweep original (contextPrompt s) angles [original] s1 w with
      | (None, s2, w2) => (setCurrentImage (Some original) (setAppState READY s2), w2)
      | (Some message, s2, w2) =>
          (setAppState ERROR
             (setError (Some ("La generación de secuencia se detuvo: " ++ message)) s2),
           w2)
      end
  end.

(** [Math.abs(img.angle - finalAngle) < 10] *)
Definition near (finalAngle : Z) (img : SceneImage) : bool :=
  Z.abs (angle img - finalAngle) <? 10.

Definition handleAngleRelease (finalAngle : Z) (s : State) (w : World)
  : State * World :=
  match originalImage s with
  | None => (s, w)
  | Some original =>
      match JS.find (near finalAngle) (sequenceImages s) with
      | Some existing => (setCurrentImage (Some existing) s, w)
      | None =>
          if (finalAngle >? 350) || (finalAngle <? 10)
          then (setCurrentImage (Some original) s, w)
          else
            let s1 := setError None (setAppState GENERATING s) in
            let '(r, w1) :=
              generateSceneFromAngle original finalAngle (contextPrompt s) w in
            match r with
            | Ok generatedDataUrl =>
                let '(uuid, w2) := randomUUID w1 in
                let generatedImage :=
                  mkSceneImage uuid generatedDataUrl "image/png" finalAngle false in
                (setAppState READY
                   (setSequenceImages
                      (sortByAngle (sequenceImages s1 ++ [generatedImage])%list)
                      (setCurrentImage (Some generatedImage) s1)), w2)
            | Throw message =>
                (setAppState ERROR
                   (setError (Some (JS.or_default message "Error desconocido.")) s1), w1)
            end
      end
  end.

Definition handleManualAngleChange (angle : Z) (s : State) : State :=
  setTargetAngle angle s.

Definition handleViewerAngleSelect (img : SceneImage) (s : State) : State :=
  setTargetAngle (angle img) (setCurrentImage (Some img) s).

(** The user's actions.  [AngleSelect] is raised by the viewer, which
    only ever passes an element of its [sequenceImages] prop. *)
Inductive Action : Type :=
| FileChange (file : option File)
| LoadEnd (f : File) (base64 : string)
| AutoContext
| EditContext (text : string)
| Enhancement (enhancementType label : string)
| RemoveBackground
| GenerateSequence
| ManualAngleChange (angle : Z)
| AngleRelease (finalAngle : Z)
| AngleSelect (index : Z).

Definition step (a : Action) (s : State) (w : World) : State * World :=
  match a with
  | FileChange file => (handleFileChange file s, w)
  | LoadEnd f base64 => onloadend f base64 s w
  | AutoContext => handleAutoContext s w
  | EditContext text => (setContextPrompt text s, w)
  | Enhancement enhancementType label => handleEnhancement enhancementType label s w
  | RemoveBackground => handleRemoveBackground s w
  | GenerateSequence => handleGenerateSequence s w
  | ManualAngleChange angle => (handleManualAngleChange angle s, w)
  | AngleRelease finalAngle => handleAngleRelease finalAngle s w
  | AngleSelect index =>
      match JS.index (sequenceImages s) index with
      | Some img => (handleViewerAngleSelect img s, w)
      | None => (s, w)
      end
  end.

(** A session: the actions are listed oldest first. *)
Fixpoint run (actions : list Action) (s : State) (w : World) : State * World :=
  match actions with
  | [] => (s, w)
  | a :: rest => let '(s1, w1) := step a s w in run rest s1 w1
  end.

(** [isBusy]: the flag that disables the controls. *)
Definition isBusy (s : State) : bool :=
  match appState s with
  | GENERATING | GENERATING_SEQUENCE | ANALYZING => true
  | _ => false
  end.

(** The images the application state refers to. *)
Definition images (s : State) : list SceneImage :=
  (match originalImage s with Some i => [i] | None => [] end
   ++ match currentImage s with Some i => [i] | None => [] end
   ++ sequenceImages s)%list.

End App.

(** ** components/ImageDisplay.tsx *)

Module ImageDisplay.

Record Props : Type := mkProps {
  image : option SceneImage;
  sequenceImages : list SceneImage
}.

(** The [useState] cells of the viewer. *)
Record Viewer : Type := mkViewer {
  isCompareMode : bool;
  isDragging : bool;
  startX : Z;
  startY : Z;
  startIndex : Z;
  scale : Q;
  translate : Z * Z;
  startTranslate : Z * Z
}.

Record MouseEvent : Type := mkMouseEvent {
  clientX : Z;
  clientY : Z
}.

Definition isSequenceActive (p : Props) : bool :=
  (0 <? List.length (sequenceImages p))%nat.

Definition zoomed (v : Viewer) : bool := negb (Qle_bool (scale v) 1).   (* scale > 1 *)

Definition sameId (image : option SceneImage) (img : SceneImage) : bool :=
  match image with
  | Some i => Nat.eqb (id img) (id i)
  | None => false
  end.

(** [handleWheel]; [deltaY] is [e.deltaY]. *)
Definition handleWheel (p : Props) (deltaY : Q) (v : Viewer) : Viewer :=
  match isCompareMode v, image p with
  | false, Some _ =>
      let newScale := Qmin (Qmax 1 (scale v - deltaY * (1 # 1000))) 5 in
      mkViewer (isCompareMode v) (isDragging v) (startX v) (startY v) (startIndex v)
               newScale
               (if Qeq_bool newScale 1 then (0, 0) else translate v)
               (startTranslate v)
  | _, _ => v
  end.

Definition handleMouseDown (p : Props) (e : MouseEvent) (v : Viewer) : Viewer :=
  match isCompareMode v, image p with
  | false, Some _ =>
      let v1 := mkViewer (isCompareMode v) true (clientX e) (clientY e)
                         (startIndex v) (scale v) (translate v) (startTranslate v) in
      if zoomed v
      then mkViewer (isCompareMode v1) (isDragging v1) (startX v1) (startY v1)
                    (startIndex v1) (scale v1) (translate v1) (translate v)
      else if isSequenceActive p
      then
        let currentIdx := JS.findIndex (sameId (image p)) (sequenceImages p) in
        mkViewer (isCompareMode v1) (isDragging v1) (startX v1) (startY v1)
                 (if currentIdx =? -1 then 0 else currentIdx)
                 (scale v1) (translate v1) (startTranslate v1)
      else v1
  | _, _ => v
  end.

Definition sensitivity : Z := 5.

Definition steps (deltaX : Z) : Z := JS.floor_div deltaX sensitivity.

(** [let newIndex = (startIndex - steps) % length;
     if (newIndex < 0) newIndex += length;] *)
Definition newIndex (startIndex deltaX length : Z) : Z :=
  let newIndex := JS.rem (startIndex - steps deltaX) length in
  if newIndex <? 0 then newIndex + length else newIndex.

(** [handleMouseMove]: the viewer after the event, and the image handed
    to [onAngleSelect] when the callback is invoked. *)
Definition handleMouseMove (p : Props) (e : MouseEvent) (v : Viewer)
  : Viewer * option SceneImage :=
  match isDragging v, isCompareMode v, image p with
  | true, false, Some _ =>
      if zoomed v
      then
        let deltaX := clientX e - startX v in
        let deltaY := clientY e - startY v in
        (mkViewer (isCompareMode v) (isDragging v) (startX v) (startY v)
                  (startIndex v) (scale v)
                  (fst (startTranslate v) + deltaX, snd (startTranslate v) + deltaY)
                  (startTranslate v), None)
      else if isSequenceActive p
      then
        let deltaX := clientX e - startX v in
        let i := newIndex (startIndex v) deltaX
                          (Z.of_nat (List.length (sequenceImages p))) in
        match JS.index (sequenceImages p) i with
        | Some selectedImage =>
            if sameId (image p) selectedImage then (v, None)
            else (v, Some selectedImage)
        | None => (v, None)
        end
      else (v, None)
  | _, _, _ => (v, None)
  end.

Definition handleMouseUp (v : Viewer) : Viewer :=
  mkViewer (isCompareMode v) false (startX v) (startY v) (startIndex v)
           (scale v) (translate v) (startTranslate v).

(** [`vision-ai-${image.angle || 'result'}.png`]: the number 0 is falsy. *)
Definition downloadName (img : SceneImage) : string :=
  "vision-ai-" ++ (if angle img =? 0 then "result" else JS.show (angle img)) ++ ".png".

(** [downloadImage]: the [href] and [download] attributes of the link it
    clicks, if it clicks one. *)
Definition downloadImage (p : Props) : option (string * string) :=
  match image p with
  | None => None
  | Some img => Some (data img, downloadName img)
  end.

End ImageDisplay.

(** ** components/KnobControl.tsx *)

Module KnobControl.
Local Open Scope R_scope.

(** [knobRef.current.getBoundingClientRect()] *)
Record DOMRect : Type := mkRect {
  left : R;
  top : R;
  width : R;
  height : R
}.

(** [Math.atan2(y, x)] on finite numbers, zeros taken as positive. *)
Definition atan2 (y x : R) : R :=
  if Rlt_dec 0 x then atan (y / x)
  else if Rlt_dec x 0 then
         if Rlt_dec y 0 then atan (y / x) - PI else atan (y / x) + PI
  else if Rlt_dec 0 y then PI / 2
  else if Rlt_dec y 0 then - (PI / 2)
  else 0.

(** [Math.round(x)]: the integer [n] with [n <= x + 1/2 < n + 1]. *)
Definition round (x : R) : Z := Zfloor (x + / 2).

(** The angle before rounding: degrees, turned by 90, negatives wrapped. *)
Definition rawAngle (dy dx : R) : R :=
  let angle := atan2 dy dx * (180 / PI) in
  let angle := angle + 90 in
  if Rlt_dec angle 0 then angle + 360 else angle.

Definition calculateAngle (knob : option DOMRect) (clientX clientY : R) : Z :=
  match knob with
  | None => 0%Z
  | Some rect =>
      let centerX := left rect + width rect / 2 in
      let centerY := top rect + height rect / 2 in
      let dx := clientX - centerX in
      let dy := clientY - centerY in
      round (rawAngle dy dx)
  end.

(** [getDirectionLabel], on any number. *)
Definition getDirectionLabel (angle : Q) : string :=
  let ge := GeminiService.Qge_bool in
  let lt := GeminiService.Qlt_bool in
  (if ge angle (675 # 2) || lt angle (45 # 2) then "Frente (0°)"
   else if ge angle (45 # 2) && lt angle (135 # 2) then "Frente-Der"
   else if ge angle (135 # 2) && lt angle (225 # 2) then "Derecha (90°)"
   else if ge angle (225 # 2) && lt angle (315 # 2) then "Atrás-Der"
   else if ge angle (315 # 2) && lt angle (405 # 2) then "Atrás (180°)"
   else if ge angle (405 # 2) && lt angle (495 # 2) then "Atrás-Izq"
   else if ge angle (495 # 2) && lt angle (585 # 2) then "Izquierda (270°)"
   else if ge angle (585 # 2) && lt angle (675 # 2) then "Frente-Izq"
   else "")%Q.


Record Props : Type := mkProps {
  value : Z;
  disabled : bool
}.

(** The callback a pointer handler invokes on the parent. *)
Inductive Callback : Type :=
| onChange (newAngle : Z)
| onRelease (finalAngle : Z).

(** [handlePointerDown]: the new [isDragging] and the callback invoked. *)
Definition handlePointerDown (p : Props) (knob : option DOMRect)
           (clientX clientY : R) (isDragging : bool) : bool * option Callback :=
  if disabled p then (isDragging, None)
  else (true, Some (onChange (calculateAngle knob clientX clientY))).

Definition handlePointerMove (p : Props) (knob : option DOMRect)
           (clientX clientY : R) (isDragging : bool) : bool * option Callback :=
  if negb isDragging || disabled p then (isDragging, None)
  else (isDragging, Some (onChange (calculateAngle knob clientX clientY))).

Definition handlePointerUp (p : Props) (isDragging : bool) : bool * option Callback :=
  if disabled p then (isDragging, None)
  else (false, Some (onRelease (value p))).

End KnobControl.

(** ** components/ImageComparator.tsx *)

Module ImageComparator.
Local Open Scope Q_scope.

(** What the handler reads of [containerRef.current.getBoundingClientRect()]. *)
Record DOMRect : Type := mkRect {
  left : Q;
  width : Q
}.

(** A mouse event, or a touch event with its first touch and the others. *)
Inductive PointerInput : Type :=
| Mouse (clientX : Q)
| Touch (first : Q) (others : list Q).

(** [sliderPosition] and the [isDragging] ref. *)
Record Slider : Type := mkSlider {
  sliderPosition : Q;
  isDragging : bool
}.

Definition initial : Slider := mkSlider 50 false.

Definition handleMouseDown (s : Slider) : Slider := mkSlider (sliderPosition s) true.

Definition handleMouseUp (s : Slider) : Slider := mkSlider (sliderPosition s) false.

(** [handleMouseMove]; a container of width 0 (where the source divides
    0 by 0) is outside this model. *)
Definition handleMouseMove (container : option DOMRect) (e : PointerInput)
           (s : Slider) : Slider :=
  match isDragging s, container with
  | true, Some rect =>
      let clientX := match e with Mouse x => x | Touch x _ => x end in
      let x := Qmax 0 (Qmin (clientX - left rect) (width rect)) in
      let percentage := x / width rect * 100 in
      mkSlider percentage (isDragging s)
  | _, _ => s
  end.

End ImageComparator.

(** ** Predicates over the application state *)

Module Predicates.
Import GeminiService App.

Definition angle_le (a b : SceneImage) : Prop := angle a <= angle b.

(** The store is in ascending order of angle. *)
Definition sortedByAngle (l : list SceneImage) : Prop := Sorted angle_le l.

(** What [generateSceneFromAngle] settles with when it is the [i]-th
    remote call of the session (counting from 0). *)
Definition sceneResult (r : nat -> RemoteOutcome) (i : nat) : Result string :=
  rethrow "Error de conexión o generación." (settle readSceneResponse (r i)).

(** What [enhanceImage] settles with as the [i]-th remote call. *)
Definition enhanceResult (r : nat -> RemoteOutcome) (i : nat) : Result string :=
  rethrow "Error al mejorar la imagen." (settle readEnhanceResponse (r i)).

(** The remote calls number [n], [n+1], ... yield the images [ds]. *)
Fixpoint succeed (r : nat -> RemoteOutcome) (n : nat) (ds : list string) : Prop :=
  match ds with
  | [] => True
  | d :: rest => sceneResult r n = Ok d /\ succeed r (S n) rest
  end.

(** The variants a sweep builds from the images [ds], tokens from [u] on. *)
Fixpoint variants (u : nat) (todo : list Z) (ds : list string) : list SceneImage :=
  match todo, ds with
  | a :: todo', d :: ds' =>
      mkSceneImage u d "image/png" a false :: variants (S u) todo' ds'
  | _, _ => []
  end.

(** The sweep angles that lead to a remote call. *)
Definition sweepAngles : list Z := List.filter (fun a => negb (a =? 0)) angles.

(** What one pass of the sweep loop logs. *)
Definition sweepEvents (original : SceneImage) (context : string) (todo : list Z)
  : list Event :=
  flat_map (fun a => [Delay 500; GenerateContent (sceneRequest original a context)])
           todo.

(** The images the remote yields from call [n] on, up to the first failure
    and at most [count] of them. *)
Fixpoint answers (r : nat -> RemoteOutcome) (n count : nat) : list string :=
  match count with
  | O => []
  | S c =>
      match sceneResult r n with
      | Ok d => d :: answers r (S n) c
      | Throw _ => []
      end
  end.

(** The payload of the first part that carries inline data. *)
Fixpoint firstInline (ps : list Part) : option string :=
  match ps with
  | [] => None
  | part :: rest =>
      match inlineData part with
      | Some d => Some d
      | None => firstInline rest
      end
  end.

(** The payload of the first inline part of the first candidate. *)
Definition firstImage (response : GenerateContentResponse) : option string :=
  match candidates response with
  | Some (candidate :: _) =>
      match parts candidate with
      | Some ps => firstInline ps
      | None => None
      end
  | _ => None
  end.

(** The first candidate reports that it stopped for safety. *)
Definition stoppedForSafety (response : GenerateContentResponse) : bool :=
  match candidates response with
  | Some (candidate :: _) =>
      match truthy (finishReason candidate) with
      | Some reason => String.eqb reason "SAFETY"
      | None => false
      end
  | _ => false
  end.

(** The angles of [l] start at [lo] or above, end at 350 or below, and
    each is at least 10 above the one before. *)
Fixpoint spacedFrom (lo : Z) (l : list SceneImage) : Prop :=
  match l with
  | [] => True
  | img :: rest => lo <= angle img <= 350 /\ spacedFrom (angle img + 10) rest
  end.

(** The same, for a list of angles. *)
Fixpoint anglesFrom (lo : Z) (l : list Z) : Prop :=
  match l with
  | [] => True
  | a :: rest => lo <= a <= 350 /\ anglesFrom (a + 10) rest
  end.

(** What else holds of every state a session can reach. *)
Record Settled (s : State) : Prop := mkSettled {
  settled_spaced : spacedFrom 0 (sequenceImages s);
  settled_idle : isBusy s = false;
  settled_banner : appState s = ERROR -> exists m, error s = Some m /\ m <> ""
}.

(** What holds of every state a session can reach. *)
Record Inv (s : State) : Prop := mkInv {
  inv_sorted : sortedByAngle (sequenceImages s);
  inv_original : forall o, originalImage s = Some o -> isOriginal o = true /\ angle o = 0;
  inv_generated : forall img,
      In img (images s) -> isOriginal img = true -> originalImage s = Some img;
  inv_no_source : originalImage s = None -> currentImage s = None /\ sequenceImages s = []
}.

End Predicates.

(** ** Sample inputs *)

Module Samples.
Import GeminiService App.

(** A pointer one pixel left of and 200 pixels above the centre of the knob. *)
Definition knobRect : KnobControl.DOMRect := KnobControl.mkRect 100 300 192 192.

Definition photo : File := mkFile 204800 "image/jpeg".
Definition photoData : string := "data:image/jpeg;base64,/9j/4AAQSkZJRg==".
Definition upload : list Action := [FileChange (Some photo); LoadEnd photo photoData].

Definition imageResponse (payload : string) : RemoteOutcome :=
  Resolved (mkResponse None
              (Some [mkCandidate (Some "STOP") (Some [mkPart (Some payload) None])])
              None).

(** A remote that answers [good] calls with an image and rejects the rest. *)
Definition failingAfter (good : nat) : nat -> RemoteOutcome :=
  fun i => if (i <? good)%nat then imageResponse "iVBORw0KGgo="
           else Rejected "429 RESOURCE_EXHAUSTED".

Definition world (r : nat -> RemoteOutcome) : World := mkWorld r [] 0.

Definition pngUrl : string := "data:image/png;base64,iVBORw0KGgo=".

(** The image [upload] creates in a fresh world. *)
Definition source : SceneImage := mkSceneImage 0 photoData "image/jpeg" 0 true.

(** The store after an upload and a complete sweep. *)
Definition eightViews : list SceneImage :=
  sequenceImages (fst (run (upload ++ [GenerateSequence]) initial
                           (world (failingAfter 7)))).

(** A viewer at rest scale in the middle of a drag that began on the
    fourth image at x = 400. *)
Definition dragging : ImageDisplay.Viewer :=
  ImageDisplay.mkViewer false true 400 300 3 1 (0, 0) (0, 0).

(** A viewer nobody has touched yet. *)
Definition untouched : ImageDisplay.Viewer :=
  ImageDisplay.mkViewer false false 0 0 0 1 (0, 0) (0, 0).

(** The viewer showing the 90-degree view of the eight. *)
Definition showingRight : ImageDisplay.Props :=
  ImageDisplay.mkProps (nth_error eightViews 2) eightViews.

Definition rightView : SceneImage := mkSceneImage 2 pngUrl "image/png" 90 false.

(** A response made of one text part and one image part. *)
Definition mixedResponse : GenerateContentResponse :=
  mkResponse None
             (Some [mkCandidate (Some "STOP")
                                (Some [mkPart None (Some "Aquí está la imagen.");
                                       mkPart (Some "iVBORw0KGgo=") None])])
             None.

(** An 800-pixel-wide comparator starting 100 pixels from the left. *)
Definition comparatorRect : ImageComparator.DOMRect := ImageComparator.mkRect 100 800.

End Samples.

(** * Properties *)

(** ** The viewer: drag-to-scrub *)

Section Scrub.
Import ImageDisplay.

Lemma rem_wrap (a n : Z) :
  0 < n ->
  (if JS.rem a n <? 0 then JS.rem a n + n else JS.rem a n) = a mod n.
Proof.
  intros Hn. unfold JS.rem.
  pose proof (Z.rem_bound_abs a n ltac:(lia)) as Hb.
  pose proof (Z.quot_rem' a n) as Hq.
  destruct (Z.ltb_spec (Z.rem a n) 0).
  - apply Z.mod_unique with (q := a ÷ n - 1); lia.
  - apply Z.mod_unique with (q := a ÷ n); lia.
Qed.

Lemma newIndex_mod (startIndex deltaX length : Z) :
  0 < length ->
  newIndex startIndex deltaX length = (startIndex - deltaX / sensitivity) mod length.
Proof.
  intros Hn. unfold newIndex, steps, JS.floor_div. now apply rem_wrap.
Qed.

Lemma newIndex_bounds (startIndex deltaX length : Z) :
  0 < length -> 0 <= newIndex startIndex deltaX length < length.
Proof.
  intros Hn. rewrite newIndex_mod by assumption. now apply Z.mod_pos_bound.
Qed.

Lemma index_in_bounds {A : Type} (l : list A) (i : Z) :
  0 <= i < Z.of_nat (List.length l) ->
  exists x, JS.index l i = Some x /\ In x l.
Proof.
  intros [Hlo Hhi]. unfold JS.index.
  destruct (Z.ltb_spec i 0); [lia|].
  destruct (nth_error l (Z.to_nat i)) as [x|] eqn:E.
  - exists x. split; [reflexivity|]. eapply nth_error_In; eassumption.
  - apply nth_error_None in E. lia.
Qed.

Lemma full_turn (startIndex turns length : Z) :
  0 < length -> 0 <= startIndex < length ->
  newIndex startIndex (turns * length * sensitivity) length = startIndex.
Proof.
  intros Hn Hs. rewrite newIndex_mod by assumption.
  unfold sensitivity. rewrite Z.div_mul by lia.
  replace (startIndex - turns * length) with (startIndex + (- turns) * length) by ring.
  rewrite Z.mod_add by lia. now apply Z.mod_small.
Qed.

Lemma not_zoomed_at_rest (v : Viewer) : (scale v == 1)%Q -> zoomed v = false.
Proof.
  intros H. unfold zoomed.
  assert (Hle : (scale v <= 1)%Q) by (rewrite H; apply Qle_refl).
  apply Qle_bool_iff in Hle. now rewrite Hle.
Qed.

(** C9. Whatever the drag distance and the start index, the index the
    viewer computes over a non-empty sequence lies in [0, length), and
    reading the sequence at that index yields one of its images. *)
Theorem scrub_index_in_bounds (p : Props) (startIndex deltaX : Z) :
  sequenceImages p <> [] ->
  let length := Z.of_nat (List.length (sequenceImages p)) in
  0 <= newIndex startIndex deltaX length < length
  /\ exists img,
       JS.index (sequenceImages p) (newIndex startIndex deltaX length) = Some img
       /\ In img (sequenceImages p).
Proof.
  intros Hne length.
  assert (Hlen : 0 < length).
  { subst length. destruct (sequenceImages p); [congruence | simpl; lia]. }
  pose proof (newIndex_bounds startIndex deltaX length Hlen) as Hb.
  split; [exact Hb|]. now apply index_in_bounds.
Qed.

(** C8. Over an eight-image sequence at zoom scale 1, a drag of exactly
    8 * sensitivity pixels (in either direction) is 8 steps, the index is
    the start index offset by the steps modulo the size, and the move
    selects the image at the index the drag started from. *)
Theorem scrub_full_turn_identity (p : Props) (v : Viewer) (e : MouseEvent) :
  List.length (sequenceImages p) = 8%nat ->
  0 <= startIndex v < 8 ->
  (scale v == 1)%Q ->
  isDragging v = true -> isCompareMode v = false -> image p <> None ->
  (clientX e - startX v = 8 * sensitivity \/ clientX e - startX v = - (8 * sensitivity)) ->
  Z.abs (steps (clientX e - startX v)) = 8
  /\ (forall deltaX,
        newIndex (startIndex v) deltaX 8 = (startIndex v - steps deltaX) mod 8)
  /\ newIndex (startIndex v) (clientX e - startX v) 8 = startIndex v
  /\ exists img,
       JS.index (sequenceImages p) (startIndex v) = Some img
       /\ handleMouseMove p e v
          = (v, if sameId (image p) img then None else Some img).
Proof.
  intros Hlen Hstart Hscale Hdrag Hcmp Himg Hdelta.
  assert (Hidx : newIndex (startIndex v) (clientX e - startX v) 8 = startIndex v).
  { destruct Hdelta as [-> | ->].
    - apply (full_turn (startIndex v) 1 8); lia.
    - replace (- (8 * sensitivity)) with (-1 * 8 * sensitivity) by ring.
      apply (full_turn (startIndex v) (-1) 8); lia. }
  split; [destruct Hdelta as [-> | ->]; reflexivity|].
  split; [intros deltaX; apply newIndex_mod; lia|].
  split; [exact Hidx|].
  destruct (index_in_bounds (sequenceImages p) (startIndex v)) as [img [Hget _]];
    [rewrite Hlen; simpl; lia|].
  exists img. split; [exact Hget|].
  unfold handleMouseMove. rewrite Hdrag, Hcmp.
  destruct (image p) as [cur|]; [|congruence].
  rewrite (not_zoomed_at_rest v Hscale).
  unfold isSequenceActive. rewrite Hlen. simpl Nat.ltb. cbv iota.
  change (Z.of_nat 8) with 8. rewrite Hidx, Hget.
  destruct (sameId (Some cur) img); reflexivity.
Qed.

End Scrub.

(** ** The angle description sent to the remote model *)

Section AngleDescription.
Import GeminiService.
Local Open Scope Q_scope.

Lemma Qrem_360_nonneg (a : Q) : 0 <= a -> 0 <= JS.Qrem a 360 < 360.
Proof.
  intros Ha. unfold JS.Qrem, JS.Qtrunc.
  set (q := a / 360).
  assert (Hq : a == 360 * q) by (unfold q; field).
  assert (Hq0 : 0 <= q) by lra.
  apply Qle_bool_iff in Hq0. rewrite Hq0.
  pose proof (Qfloor_le q) as Hlo.
  pose proof (Qlt_floor q) as Hhi.
  rewrite inject_Z_plus in Hhi. change (inject_Z 1) with 1 in Hhi.
  lra.
Qed.

Lemma Qrem_360_bounds (a : Q) : - (360) < JS.Qrem a 360 < 360.
Proof.
  destruct (Qlt_le_dec a 0) as [Hneg | Hpos].
  - unfold JS.Qrem, JS.Qtrunc.
    set (q := a / 360).
    assert (Hq : a == 360 * q) by (unfold q; field).
    assert (Hq0 : Qle_bool 0 q = false).
    { destruct (Qle_bool 0 q) eqn:E; [|reflexivity].
      apply Qle_bool_iff in E. lra. }
    rewrite Hq0.
    pose proof (Qle_ceiling q) as Hhi.
    pose proof (Qceiling_lt q) as Hlo.
    unfold Z.sub in Hlo. rewrite inject_Z_plus, inject_Z_opp in Hlo.
    change (inject_Z 1) with 1 in Hlo.
    assert (Hc : inject_Z (Qceiling q) <= 0).
    { change 0 with (inject_Z 0). rewrite <- Zle_Qle.
      change 0%Z with (Qceiling 0). apply Qceiling_resp_le. lra. }
    lra.
  - pose proof (Qrem_360_nonneg a Hpos). lra.
Qed.

Section Rounding.
Variable fl : Q -> Q.
Hypothesis fl_nonneg : forall x, 0 <= x -> 0 <= fl x.

Lemma normAngle_range (angle : Q) : 0 <= normAngle fl angle < 360.
Proof.
  unfold normAngle. apply Qrem_360_nonneg, fl_nonneg.
  pose proof (Qrem_360_bounds angle). lra.
Qed.
End Rounding.

Lemma Qge_bool_spec (a b : Q) : reflect (b <= a) (Qge_bool a b).
Proof.
  unfold Qge_bool. destruct (Qle_bool b a) eqn:E; constructor.
  - now apply Qle_bool_iff.
  - intros H. apply Qle_bool_iff in H. congruence.
Qed.

Lemma Qlt_bool_spec (a b : Q) : reflect (a < b) (Qlt_bool a b).
Proof.
  unfold Qlt_bool. destruct (Qle_bool b a) eqn:E; constructor.
  - apply Qle_bool_iff in E. lra.
  - apply Qnot_le_lt. intros H. apply Qle_bool_iff in H. congruence.
Qed.

(** C10. For every number [angle], whatever the rounding of the
    intermediate sum (as long as it keeps non-negative numbers
    non-negative), the normalised angle lies in [0, 360), the description
    is one of the four cardinal ones, chosen by the 90-degree bucket around
    the cardinal, and never the oblique fallback, so the string returned is
    one of the four cardinal texts and differs from the oblique text; the
    request sent for a free-form angle such as 63 carries only that bucket. *)
Theorem angle_description_is_cardinal (fl : Q -> Q) (angle : Q) :
  (forall x, 0 <= x -> 0 <= fl x) ->
  let n := normAngle fl angle in
  0 <= n < 360
  /\ ((getAngleDescription fl angle = Frente /\ (315 <= n \/ n < 45))
      \/ (getAngleDescription fl angle = PerfilDerecho /\ 45 <= n < 135)
      \/ (getAngleDescription fl angle = Espalda /\ 135 <= n < 225)
      \/ (getAngleDescription fl angle = PerfilIzquierdo /\ 225 <= n < 315))
  /\ (forall a, getAngleDescription fl angle <> Oblicuo a)
  /\ (forall show,
        In (descriptionText show (getAngleDescription fl angle)) cardinalTexts
        /\ forall a, descriptionText show (getAngleDescription fl angle)
                     <> descriptionText show (Oblicuo a))
  /\ (forall original context,
        prompt (sceneRequest original 63 context) = OrbitalPrompt PerfilDerecho context
        /\ sceneRequest original 63 context = sceneRequest original 90 context).
Proof.
  intros Hfl n.
  pose proof (normAngle_range fl Hfl angle) as Hn. fold n in Hn.
  assert (Hcases :
    (getAngleDescription fl angle = Frente /\ (315 <= n \/ n < 45))
    \/ (getAngleDescription fl angle = PerfilDerecho /\ 45 <= n < 135)
    \/ (getAngleDescription fl angle = Espalda /\ 135 <= n < 225)
    \/ (getAngleDescription fl angle = PerfilIzquierdo /\ 225 <= n < 315)).
  { unfold getAngleDescription. fold n.
    destruct (Qge_bool_spec n 315); simpl; [left; split; [reflexivity | now left]|].
    destruct (Qlt_bool_spec n 45); simpl; [left; split; [reflexivity | now right]|].
    destruct (Qge_bool_spec n 45); simpl; [|lra].
    destruct (Qlt_bool_spec n 135); simpl; [right; left; split; [reflexivity | lra]|].
    destruct (Qge_bool_spec n 135); simpl; [|lra].
    destruct (Qlt_bool_spec n 225); simpl;
      [right; right; left; split; [reflexivity | lra]|].
    destruct (Qge_bool_spec n 225); simpl; [|lra].
    destruct (Qlt_bool_spec n 315); simpl; [|lra].
    right; right; right; split; [reflexivity | lra]. }
  split; [exact Hn|]. split; [exact Hcases|]. split; [|split].
  - intros a.
    destruct Hcases as [[-> _] | [[-> _] | [[-> _] | [-> _]]]]; discriminate.
  - intros show.
    destruct Hcases as [[-> _] | [[-> _] | [[-> _] | [-> _]]]];
      (split; [cbn; tauto | intros a; cbn; discriminate]).
  - intros original context. split; reflexivity.
Qed.

End AngleDescription.

(** ** The knob: pointer position to angle *)

Section Knob.
Import KnobControl Samples.
Local Open Scope R_scope.

Lemma atan_pos (x : R) : 0 < x -> 0 < atan x.
Proof. intros H. rewrite <- atan_0. now apply atan_increasing. Qed.

Lemma atan_neg (x : R) : x < 0 -> atan x < 0.
Proof. intros H. rewrite <- atan_0. now apply atan_increasing. Qed.

Lemma atan_lt_id (x : R) : 0 < x -> atan x < x.
Proof.
  intros Hx.
  cut ((Ranalysis1.id - atan)%F 0 < (Ranalysis1.id - atan)%F x).
  { unfold minus_fct, Ranalysis1.id. rewrite atan_0. lra. }
  eapply (MVT.derive_increasing_interv 0 x (Ranalysis1.id - atan)%F); try lra.
  intros t Ht.
  rewrite derive_pt_minus, derive_pt_id, derive_pt_atan.
  unfold Rsqr, Rdiv.
  assert (0 < t * t) by (apply Rmult_lt_0_compat; lra).
  assert (H1 : / (1 + t * t) < / 1) by (apply Rinv_lt_contravar; lra).
  rewrite Rinv_1 in H1. lra.
Qed.

Lemma atan2_bounds (y x : R) : - PI < atan2 y x <= PI.
Proof.
  pose proof PI_RGT_0 as Hpi.
  unfold atan2.
  destruct (Rlt_dec 0 x) as [Hx | Hx].
  { pose proof (atan_bound (y / x)). lra. }
  destruct (Rlt_dec x 0) as [Hx' | Hx'].
  - pose proof (atan_bound (y / x)) as Hb.
    destruct (Rlt_dec y 0) as [Hy | Hy].
    + assert (0 < y / x).
      { replace (y / x) with ((- y) * / (- x)) by (field; lra).
        apply Rmult_lt_0_compat; [lra | apply Rinv_0_lt_compat; lra]. }
      pose proof (atan_pos (y / x)). lra.
    + destruct (Req_dec y 0) as [-> | Hy0].
      * unfold Rdiv. rewrite Rmult_0_l, atan_0. lra.
      * assert (y / x < 0).
        { replace (y / x) with (- (y * / (- x))) by (field; lra).
          assert (0 < y * / (- x));
            [apply Rmult_lt_0_compat; [lra | apply Rinv_0_lt_compat; lra] | lra]. }
        pose proof (atan_neg (y / x)). lra.
  - destruct (Rlt_dec 0 y); [lra|]. destruct (Rlt_dec y 0); lra.
Qed.

Lemma degrees_bounds (a : R) : - PI < a <= PI -> -180 < a * (180 / PI) <= 180.
Proof.
  intros [Hlo Hhi]. pose proof PI_RGT_0 as Hpi.
  assert (Hk : 0 < 180 / PI) by (apply Rdiv_lt_0_compat; lra).
  assert (Hpk : PI * (180 / PI) = 180) by (field; lra).
  split.
  - apply (Rmult_lt_compat_r (180 / PI)) in Hlo; [|exact Hk]. lra.
  - apply (Rmult_le_compat_r (180 / PI)) in Hhi; [|lra]. lra.
Qed.

Lemma rawAngle_range (dy dx : R) : 0 <= rawAngle dy dx < 360.
Proof.
  unfold rawAngle.
  pose proof (degrees_bounds _ (atan2_bounds dy dx)) as Hd.
  destruct (Rlt_dec (atan2 dy dx * (180 / PI) + 90) 0); lra.
Qed.

Lemma round_spec (x : R) : IZR (round x) - / 2 <= x < IZR (round x) + / 2.
Proof. unfold round. pose proof (Zfloor_bound (x + / 2)). lra. Qed.

Lemma round_eq (x : R) (n : Z) : IZR n - / 2 <= x < IZR n + / 2 -> round x = n.
Proof. intros H. unfold round. apply Zfloor_eq. lra. Qed.

Lemma rawAngle_just_left_of_up : 359 + / 2 <= rawAngle (-200) (-1) < 360.
Proof.
  unfold rawAngle, atan2.
  destruct (Rlt_dec 0 (-1)) as [H | _]; [lra|].
  destruct (Rlt_dec (-1) 0) as [_ | H]; [|lra].
  destruct (Rlt_dec (-200) 0) as [_ | H]; [|lra].
  replace (-200 / -1) with 200 by (field; lra).
  pose proof (atan_inv 200 ltac:(lra)) as Hinv.
  set (e := atan (/ 200)) in *.
  assert (He0 : 0 < e) by (apply atan_pos; lra).
  assert (He1 : e < / 200) by (apply atan_lt_id; lra).
  pose proof PI2_3_2 as Hpi.
  assert (Hk0 : 0 < 180 / PI) by (apply Rdiv_lt_0_compat; lra).
  assert (Hk1 : 180 / PI < 60).
  { apply (Rmult_lt_reg_r PI); [lra|].
    replace (180 / PI * PI) with 180 by (field; lra). lra. }
  replace (atan 200) with (PI / 2 - e) by lra.
  replace ((PI / 2 - e - PI) * (180 / PI) + 90) with (- (e * (180 / PI)))
    by (field; lra).
  assert (Hek0 : 0 < e * (180 / PI)) by (apply Rmult_lt_0_compat; lra).
  assert (Hek1 : e * (180 / PI) < / 200 * 60).
  { apply Rmult_gt_0_lt_compat; lra. }
  destruct (Rlt_dec (- (e * (180 / PI))) 0) as [_ | H]; lra.
Qed.

(** C7, as stated, fails: with the pointer just left of straight up the
    knob returns 360, outside [0, 360). *)
Lemma knob_angle_reaches_360 :
  calculateAngle (Some knobRect) 195 196 = 360%Z
  /\ ~ (0 <= calculateAngle (Some knobRect) 195 196 < 360)%Z.
Proof.
  assert (H : calculateAngle (Some knobRect) 195 196 = 360%Z).
  { unfold calculateAngle, knobRect. cbn [left top width height].
    replace (195 - (100 + 192 / 2)) with (-1) by lra.
    replace (196 - (300 + 192 / 2)) with (-200) by lra.
    apply round_eq. pose proof rawAngle_just_left_of_up. lra. }
  split; [exact H|]. rewrite H. lia.
Qed.

(** C7, amended. Without a mounted knob the angle is 0.  Otherwise, with
    [dx], [dy] the pointer offsets from the centre, the angle before
    rounding is atan2(dy, dx) in degrees plus 90, plus 360 when that is
    negative, and lies in [0, 360); the returned value is that angle
    rounded to the nearest integer (halves upwards), an integer of the
    closed interval [0, 360], which is below 360 exactly when the angle
    before rounding is below 359.5. *)
Theorem knob_angle_rounded (rect : DOMRect) (clientX clientY : R) :
  let dx := clientX - (left rect + width rect / 2) in
  let dy := clientY - (top rect + height rect / 2) in
  let degrees := atan2 dy dx * (180 / PI) + 90 in
  let result := calculateAngle (Some rect) clientX clientY in
  calculateAngle None clientX clientY = 0%Z
  /\ rawAngle dy dx = (if Rlt_dec degrees 0 then degrees + 360 else degrees)
  /\ 0 <= rawAngle dy dx < 360
  /\ IZR result - / 2 <= rawAngle dy dx < IZR result + / 2
  /\ (0 <= result <= 360)%Z
  /\ ((result < 360)%Z <-> rawAngle dy dx < 359 + / 2).
Proof.
  intros dx dy degrees result.
  pose proof (rawAngle_range dy dx) as Hraw.
  pose proof (round_spec (rawAngle dy dx)) as Hround.
  change (round (rawAngle dy dx)) with result in Hround.
  split; [reflexivity|]. split; [reflexivity|]. split; [exact Hraw|].
  split; [exact Hround|].
  split; [split|split].
  - assert (IZR (-1) < IZR result) by lra. apply lt_IZR in H. lia.
  - assert (IZR result < IZR 361) by lra. apply lt_IZR in H. lia.
  - intros Hlt. assert (IZR result <= IZR 359) by (apply IZR_le; lia). lra.
  - intros Hlt. apply lt_IZR. lra.
Qed.

End Knob.

(** ** The orchestrator: sorting *)

Section Sorting.
Import App Predicates.

Lemma insert_In (x y : SceneImage) (l : list SceneImage) :
  In y (JS.insert angle x l) <-> y = x \/ In y l.
Proof.
  induction l as [|z l IH]; simpl.
  - intuition.
  - destruct (angle x <=? angle z); simpl; [intuition|].
    rewrite IH. intuition.
Qed.

Lemma sort_In (y : SceneImage) (l : list SceneImage) :
  In y (sortByAngle l) <-> In y l.
Proof.
  unfold sortByAngle. induction l as [|x l IH]; simpl; [tauto|].
  rewrite insert_In, IH. intuition.
Qed.

Lemma insert_HdRel (a x : SceneImage) (l : list SceneImage) :
  angle_le a x -> HdRel angle_le a l -> HdRel angle_le a (JS.insert angle x l).
Proof.
  intros Hax Hal. destruct l as [|y l]; simpl.
  - now constructor.
  - destruct (angle x <=? angle y); constructor; [assumption|].
    now inversion Hal.
Qed.

Lemma insert_sorted (x : SceneImage) (l : list SceneImage) :
  sortedByAngle l -> sortedByAngle (JS.insert angle x l).
Proof.
  unfold sortedByAngle. induction 1 as [|y l Hl IH Hhd]; simpl.
  - repeat constructor.
  - destruct (Z.leb_spec (angle x) (angle y)).
    + constructor; [now constructor | now constructor].
    + constructor; [exact IH|].
      apply insert_HdRel; [unfold angle_le; lia | exact Hhd].
Qed.

Lemma sort_sorted (l : list SceneImage) : sortedByAngle (sortByAngle l).
Proof.
  unfold sortByAngle. induction l as [|x l IH]; simpl.
  - constructor.
  - now apply insert_sorted.
Qed.

(** Sorting a list that is already in order leaves it as it is. *)
Lemma sort_sorted_id (l : list SceneImage) : sortedByAngle l -> sortByAngle l = l.
Proof.
  unfold sortedByAngle, sortByAngle. induction 1 as [|x l Hl IH Hhd]; simpl.
  - reflexivity.
  - rewrite IH. destruct Hhd as [|y l' Hxy]; simpl; [reflexivity|].
    unfold angle_le in Hxy. destruct (Z.leb_spec (angle x) (angle y)); [reflexivity | lia].
Qed.

(** Replacing images by images of the same angle keeps the order. *)
Lemma map_same_angle_sorted (f : SceneImage -> SceneImage) (l : list SceneImage) :
  (forall img, angle (f img) = angle img) ->
  sortedByAngle l -> sortedByAngle (List.map f l).
Proof.
  intros Hf. unfold sortedByAngle. induction 1 as [|x l Hl IH Hhd]; simpl.
  - constructor.
  - constructor; [exact IH|].
    destruct Hhd as [|y l' Hxy]; simpl; constructor.
    unfold angle_le in *. now rewrite !Hf.
Qed.

Lemma sameAngle_eq (current img : SceneImage) :
  sameAngle current img = true <-> angle img = angle current.
Proof. unfold sameAngle. rewrite Z.ltb_lt. lia. Qed.

Lemma near_spec (a : Z) (img : SceneImage) :
  near a img = true <-> Z.abs (angle img - a) < 10.
Proof. unfold near. apply Z.ltb_lt. Qed.

End Sorting.

(** ** The orchestrator: what every reachable state satisfies *)

Section Invariant.
Import GeminiService App Predicates.

Lemma images_In (s : State) (img : SceneImage) :
  In img (images s)
  <-> originalImage s = Some img \/ currentImage s = Some img
      \/ In img (sequenceImages s).
Proof.
  unfold images. rewrite !in_app_iff.
  destruct (originalImage s) as [o|], (currentImage s) as [c|]; simpl;
    intuition congruence.
Qed.

Lemma Inv_initial : Inv initial.
Proof.
  constructor; simpl.
  - constructor.
  - discriminate.
  - intros img [].
  - auto.
Qed.

(** The invariant only reads the three image-holding cells. *)
Lemma Inv_frame (s s' : State) :
  originalImage s' = originalImage s -> currentImage s' = currentImage s ->
  sequenceImages s' = sequenceImages s -> Inv s -> Inv s'.
Proof.
  intros Ho Hc Hs [H1 H2 H3 H4].
  constructor; rewrite ?Ho, ?Hc, ?Hs; try assumption.
  intros img Hin. apply H3. apply images_In. apply images_In in Hin.
  now rewrite Ho, Hc, Hs in Hin.
Qed.

(** A handler that keeps the source and only brings in known images or
    generated ones keeps the invariant. *)
Lemma Inv_change (s s' : State) :
  Inv s ->
  originalImage s' = originalImage s -> originalImage s <> None ->
  (forall c, currentImage s' = Some c -> In c (images s) \/ isOriginal c = false) ->
  sortedByAngle (sequenceImages s') ->
  (forall img, In img (sequenceImages s') -> In img (images s) \/ isOriginal img = false) ->
  Inv s'.
Proof.
  intros [H1 H2 H3 H4] Ho Hsome Hc Hsorted Hstore.
  constructor.
  - exact Hsorted.
  - rewrite Ho. exact H2.
  - intros img Hin Horig. rewrite Ho.
    apply images_In in Hin. destruct Hin as [Hin | [Hin | Hin]].
    + now rewrite <- Ho.
    + destruct (Hc img Hin) as [Hk | Hk]; [now apply H3 | congruence].
    + destruct (Hstore img Hin) as [Hk | Hk]; [now apply H3 | congruence].
  - rewrite Ho. intros Hnone. contradiction.
Qed.

Lemma near_found (a : Z) (l : list SceneImage) (img : SceneImage) :
  JS.find (near a) l = Some img -> In img l /\ Z.abs (angle img - a) < 10.
Proof.
  intros H. apply find_some in H. now rewrite near_spec in H.
Qed.

Lemma index_In {A : Type} (l : list A) (i : Z) (x : A) :
  JS.index l i = Some x -> In x l.
Proof.
  unfold JS.index. destruct (i <? 0); [discriminate|]. apply nth_error_In.
Qed.

(** What the sweep loop leaves untouched, and where its store comes from. *)
Lemma sweep_frame (original : SceneImage) (context : string) (todo : list Z) :
  forall newSequence s w,
    let '(_, s', _) := sweep original context todo newSequence s w in
    originalImage s' = originalImage s
    /\ currentImage s' = currentImage s
    /\ (sequenceImages s' = sequenceImages s
        \/ exists l, sequenceImages s' = sortByAngle l
                     /\ forall img, In img l -> In img newSequence \/ isOriginal img = false).
Proof.
  induction todo as [|a todo IH]; intros newSequence s w; cbn [sweep].
  - auto.
  - destruct (a =? 0); [apply IH|].
    destruct (generateSceneFromAngle original a context (sleep 500 w)) as [[d | m] w2].
    + destruct (randomUUID w2) as [uuid w3].
      specialize (IH (newSequence ++ [mkSceneImage uuid d "image/png" a false])%list
                     (setSequenceImages
                        (sortByAngle
                           (newSequence ++ [mkSceneImage uuid d "image/png" a false])%list) s)
                     w3).
      destruct (sweep original context todo _ _ w3) as [[m' s'] w'].
      cbv beta iota in IH |- *.
      destruct IH as [Ho [Hc Hs]]. simpl in Ho, Hc, Hs.
      split; [exact Ho|]. split; [exact Hc|]. right.
      destruct Hs as [Hs | [l [Hs Hl]]].
      * eexists. split; [exact Hs|]. intros img Hin.
        apply in_app_iff in Hin. destruct Hin as [Hin | [<- | []]]; auto.
      * exists l. split; [exact Hs|]. intros img Hin.
        destruct (Hl img Hin) as [Hk | Hk]; [|now right].
        apply in_app_iff in Hk. destruct Hk as [Hk | [<- | []]]; auto.
    + auto.
Qed.

Lemma Inv_enhanceWith (enhancementType : string) (current : SceneImage)
      (s s1 : State) (w : World) :
  Inv s -> currentImage s = Some current ->
  originalImage s1 = originalImage s -> currentImage s1 = currentImage s ->
  sequenceImages s1 = sequenceImages s ->
  Inv (fst (enhanceWith enhancementType current s s1 w)).
Proof.
  intros HI Hcur Ho Hc Hs. unfold enhanceWith.
  destruct (enhanceImage current enhancementType (contextPrompt s) w) as [[d | m] w1].
  - destruct (randomUUID w1) as [uuid w2]. simpl fst.
    assert (Hsrc : originalImage s <> None).
    { intros Hnone. destruct (inv_no_source s HI Hnone). congruence. }
    apply (Inv_change s); [exact HI | | exact Hsrc | | |].
    + destruct (0 <? List.length (sequenceImages s))%nat; simpl; exact Ho.
    + destruct (0 <? List.length (sequenceImages s))%nat; simpl;
        intros c [= <-]; now right.
    + destruct (0 <? List.length (sequenceImages s))%nat; simpl.
      * apply map_same_angle_sorted; [|apply (inv_sorted s HI)].
        intros img. destruct (sameAngle current img) eqn:E; [|reflexivity].
        apply sameAngle_eq in E. simpl. congruence.
      * rewrite Hs. apply (inv_sorted s HI).
    + assert (Hmap : forall img,
                In img (List.map (fun i => if sameAngle current i
                                            then mkSceneImage uuid d "image/png"
                                                              (angle current) false
                                            else i) (sequenceImages s)) ->
                In img (images s) \/ isOriginal img = false).
      { intros img Hin. apply in_map_iff in Hin. destruct Hin as [i [<- Hin]].
        destruct (sameAngle current i); [now right|].
        left. apply images_In. auto. }
      destruct (0 <? List.length (sequenceImages s))%nat; simpl.
      * exact Hmap.
      * rewrite Hs. intros img Hin. left. apply images_In. auto.
  - simpl. now apply (Inv_frame s).
Qed.

Lemma Inv_step (a : Action) (s : State) (w : World) : Inv s -> Inv (fst (step a s w)).
Proof.
  intros HI. destruct a as [file | f base64 | | text | ty label | | | ang | ang | idx];
    cbn [step fst].
  - (* FileChange *)
    unfold handleFileChange. destruct file as [f|]; [|exact HI].
    destruct (size f >? 5 * 1024 * 1024).
    + now apply (Inv_frame s).
    + destruct HI as [H1 H2 H3 H4]. constructor; simpl.
      * constructor.
      * exact H2.
      * intros img Hin. apply H3. apply images_In. apply images_In in Hin.
        simpl in Hin. tauto.
      * intros Hnone. split; [now apply H4 | reflexivity].
  - (* LoadEnd *)
    unfold onloadend. destruct (randomUUID w) as [uuid w1]. simpl.
    constructor; simpl.
    + repeat constructor.
    + intros o [= <-]. auto.
    + intros img Hin Horig.
      destruct Hin as [<- | [<- | [<- | []]]]; reflexivity.
    + discriminate.
  - (* AutoContext *)
    unfold handleAutoContext. destruct (originalImage s); [|exact HI].
    destruct (analyzeImage s0 w) as [[d | m] w1]; simpl; now apply (Inv_frame s).
  - (* EditContext *)
    now apply (Inv_frame s).
  - (* Enhancement *)
    unfold handleEnhancement. destruct (currentImage s) as [cur|] eqn:Hcur; [|exact HI].
    now apply Inv_enhanceWith.
  - (* RemoveBackground *)
    unfold handleRemoveBackground.
    destruct (currentImage s) as [cur|] eqn:Hcur; [|exact HI].
    now apply Inv_enhanceWith.
  - (* GenerateSequence *)
    unfold handleGenerateSequence.
    destruct (originalImage s) as [o|] eqn:Ho; [|exact HI].
    pose proof (sweep_frame o (contextPrompt s) angles [o]
                  (setError None (setAppState GENERATING_SEQUENCE s)) w) as Hf.
    destruct (sweep o (contextPrompt s) angles [o] _ w) as [[m s2] w2].
    simpl in Hf. destruct Hf as [Ho2 [Hc2 Hs2]].
    assert (Hstore : sortedByAngle (sequenceImages s2)
                     /\ forall img, In img (sequenceImages s2) ->
                                    In img (images s) \/ isOriginal img = false).
    { destruct Hs2 as [-> | [l [-> Hl]]].
      - split; [apply (inv_sorted s HI)|]. intros img Hin. left.
        apply images_In. auto.
      - split; [apply sort_sorted|]. intros img Hin. apply (proj1 (sort_In _ _)) in Hin.
        destruct (Hl img Hin) as [[<- | []] | Hk]; [|now right].
        left. apply images_In. auto. }
    destruct Hstore as [Hsorted Hstore].
    destruct m as [message|]; simpl;
      (apply (Inv_change s); simpl;
       [exact HI | congruence | congruence | | exact Hsorted | exact Hstore]).
    + rewrite Hc2. intros c Hc. left. apply images_In. auto.
    + intros c [= <-]. left. apply images_In. auto.
  - (* ManualAngleChange *)
    now apply (Inv_frame s).
  - (* AngleRelease *)
    unfold handleAngleRelease.
    destruct (originalImage s) as [o|] eqn:Ho; [|exact HI].
    assert (Hsrc : originalImage s <> None) by congruence.
    assert (Hkeep : forall img, In img (sequenceImages s) ->
                                In img (images s) \/ isOriginal img = false).
    { intros img Hin. left. apply images_In. auto. }
    destruct (JS.find (near ang) (sequenceImages s)) as [existing|] eqn:Hfind.
    { simpl. apply near_found in Hfind. destruct Hfind as [Hin _].
      apply (Inv_change s); simpl;
        [exact HI | reflexivity | exact Hsrc | | apply (inv_sorted s HI) | exact Hkeep].
      intros c [= <-]. left. apply images_In. auto. }
    destruct ((ang >? 350) || (ang <? 10)).
    { simpl. apply (Inv_change s); simpl;
        [exact HI | reflexivity | exact Hsrc | | apply (inv_sorted s HI) | exact Hkeep].
      intros c [= <-]. left. apply images_In. auto. }
    destruct (generateSceneFromAngle o ang (contextPrompt s) w) as [[d | m] w1].
    + destruct (randomUUID w1) as [uuid w2]. simpl.
      apply (Inv_change s); simpl;
        [exact HI | reflexivity | exact Hsrc | | apply sort_sorted |].
      * intros c [= <-]. now right.
      * intros img Hin. apply (proj1 (sort_In _ _)) in Hin. apply in_app_iff in Hin.
        destruct Hin as [Hin | [<- | []]]; [now apply Hkeep | now right].
    + simpl. now apply (Inv_frame s).
  - (* AngleSelect *)
    destruct (JS.index (sequenceImages s) idx) as [img|] eqn:Hidx; [|exact HI].
    simpl. apply index_In in Hidx.
    assert (Hsrc : originalImage s <> None).
    { intros Hnone. destruct (inv_no_source s HI Hnone) as [_ Hempty].
      rewrite Hempty in Hidx. contradiction. }
    apply (Inv_change s); simpl;
      [exact HI | reflexivity | exact Hsrc | | apply (inv_sorted s HI) |].
    + intros c [= <-]. left. apply images_In. auto.
    + intros i Hin. left. apply images_In. auto.
Qed.

Lemma Inv_run (actions : list Action) :
  forall s w, Inv s -> Inv (fst (run actions s w)).
Proof.
  induction actions as [|a actions IH]; intros s w HI; simpl; [exact HI|].
  pose proof (Inv_step a s w HI) as Hstep.
  destruct (step a s w) as [s1 w1]. now apply IH.
Qed.

Lemma reachable_Inv (actions : list Action) (w0 : World) :
  Inv (fst (run actions initial w0)).
Proof. apply Inv_run, Inv_initial. Qed.

End Invariant.

(** ** The orchestrator: resolving an angle *)

Section Resolve.
Import GeminiService App Predicates Samples.



(** C3, as stated, fails.  At exactly 10 and at exactly 350 degrees a
    fresh store sends the request to the remote model; and at 355 degrees
    a cached 346-degree variant is shown instead of the original. *)
Lemma origin_snap_is_strict_and_after_cache :
  (let '(s, w) := run upload initial (world (failingAfter 1)) in
   ncalls (trace (snd (handleAngleRelease 10 s w))) = 1%nat
   /\ ncalls (trace (snd (handleAngleRelease 350 s w))) = 1%nat
   /\ currentImage (fst (handleAngleRelease 10 s w)) <> originalImage s)
  /\ (let '(s, w) := run (upload ++ [AngleRelease 346]) initial (world (failingAfter 1)) in
      option_map angle (currentImage (fst (handleAngleRelease 355 s w))) = Some 346
      /\ currentImage (fst (handleAngleRelease 355 s w)) <> originalImage s).
Proof.
  split; vm_compute; repeat split; discriminate.
Qed.

(** C3, amended. With a source uploaded, for every requested angle
    strictly below 10 or strictly above 350 degrees, resolving issues no
    remote call and changes nothing but the displayed image, which is the
    first cached image less than 10 degrees away when there is one and the
    original otherwise; it is the original whenever the original is the
    only cached image that close. *)
Theorem origin_snap_issues_no_remote_call
        (s : State) (w : World) (original : SceneImage) (a : Z) :
  originalImage s = Some original ->
  a < 10 \/ 350 < a ->
  handleAngleRelease a s w
  = (setCurrentImage
       (Some (match JS.find (near a) (sequenceImages s) with
              | Some existing => existing
              | None => original
              end)) s, w)
  /\ ((forall img, In img (sequenceImages s) ->
                   Z.abs (angle img - a) < 10 -> img = original) ->
      fst (handleAngleRelease a s w) = setCurrentImage (Some original) s).
Proof.
  intros Ho Ha.
  assert (Hrun : handleAngleRelease a s w
                 = (setCurrentImage
                      (Some (match JS.find (near a) (sequenceImages s) with
                             | Some existing => existing
                             | None => original
                             end)) s, w)).
  { unfold handleAngleRelease. rewrite Ho.
    destruct (JS.find (near a) (sequenceImages s)); [reflexivity|].
    assert (Hsnap : (a >? 350) || (a <? 10) = true).
    { apply orb_true_iff. rewrite Z.gtb_ltb, !Z.ltb_lt. tauto. }
    now rewrite Hsnap. }
  split; [exact Hrun|].
  intros Honly. rewrite Hrun. cbn [fst].
  destruct (JS.find (near a) (sequenceImages s)) as [existing|] eqn:Hfind;
    [|reflexivity].
  destruct (near_found a _ existing Hfind) as [Hin Hnear].
  now rewrite (Honly existing Hin Hnear).
Qed.

End Resolve.

(** ** The orchestrator: order of the store, enhancement, the original *)

Section Store.
Import GeminiService App Predicates Samples.



Lemma enhanceWith_store (enhancementType : string) (current : SceneImage)
      (s s1 : State) (w : World) :
  sequenceImages s1 = sequenceImages s ->
  sequenceImages (fst (enhanceWith enhancementType current s s1 w))
  = match fst (enhanceImage current enhancementType (contextPrompt s) w) with
    | Ok dataUrl =>
        List.map (fun img => if sameAngle current img
                             then mkSceneImage
                                    (uuids (snd (enhanceImage current enhancementType
                                                              (contextPrompt s) w)))
                                    dataUrl "image/png" (angle current) false
                             else img)
                 (sequenceImages s)
    | Throw _ => sequenceImages s
    end.
Proof.
  intros Hs. unfold enhanceWith.
  destruct (enhanceImage current enhancementType (contextPrompt s) w) as [[d | m] w1];
    cbn [fst snd]; [|exact Hs].
  unfold randomUUID. cbn [fst].
  destruct (sequenceImages s) as [|x l] eqn:E; cbn; [congruence | reflexivity].
Qed.



(** C5. When the remote enhancement of the current image succeeds, the
    handler (enhancement or background removal alike) shows a new image
    with the angle of the image it enhanced and [isOriginal = false]; the
    store keeps its length, and each of its entries is the new image if its
    angle is less than 1 degree from that angle and is untouched otherwise. *)
Theorem enhancement_replaces_in_place
        (enhancementType label : string) (s : State) (w : World)
        (current : SceneImage) (dataUrl : string) :
  currentImage s = Some current ->
  enhanceResult (remote w) (ncalls (trace w)) = Ok dataUrl ->
  let newImage := mkSceneImage (uuids w) dataUrl "image/png" (angle current) false in
  let replaced :=
    List.map (fun img => if Z.abs (angle img - angle current) <? 1 then newImage else img)
             (sequenceImages s) in
  forall s',
    s' = fst (handleEnhancement enhancementType label s w)
    \/ s' = fst (handleRemoveBackground s w) ->
    currentImage s' = Some newImage
    /\ angle newImage = angle current
    /\ isOriginal newImage = false
    /\ sequenceImages s' = replaced
    /\ List.length (sequenceImages s') = List.length (sequenceImages s)
    /\ appState s' = READY.
Proof.
  intros Hcur Hok newImage replaced s' Hs'.
  assert (Hwith : forall s1 ty,
             sequenceImages s1 = sequenceImages s ->
             enhanceResult (remote w) (ncalls (trace w)) = Ok dataUrl ->
             let r := fst (enhanceWith ty current s s1 w) in
             currentImage r = Some newImage /\ sequenceImages r = replaced
             /\ appState r = READY).
  { intros s1 ty Hs1 Hres. cbv zeta. rewrite enhanceWith_store by exact Hs1.
    unfold enhanceWith, enhanceImage, generateContent.
    unfold enhanceResult in Hres. rewrite Hres. cbn.
    destruct (List.length (sequenceImages s)); cbn; repeat split; reflexivity. }
  assert (H : currentImage s' = Some newImage /\ sequenceImages s' = replaced
              /\ appState s' = READY).
  { destruct Hs' as [-> | ->].
    - unfold handleEnhancement. rewrite Hcur. now apply Hwith.
    - unfold handleRemoveBackground. rewrite Hcur. now apply Hwith. }
  destruct H as [H1 [H2 H3]].
  repeat split; try assumption. rewrite H2. unfold replaced. apply length_map.
Qed.



End Store.

(** ** The orchestrator: a sweep that fails part-way *)

Section Sweep.
Import GeminiService App Predicates Samples.

Lemma ncalls_app (t u : list Event) : ncalls (t ++ u) = (ncalls t + ncalls u)%nat.
Proof. unfold ncalls. now rewrite filter_app, length_app. Qed.

Lemma ncalls_sweepEvents (original : SceneImage) (context : string) (todo : list Z) :
  ncalls (sweepEvents original context todo) = List.length todo.
Proof. induction todo as [|a todo IH]; cbn; [reflexivity | now f_equal]. Qed.

Lemma generateSceneFromAngle_eq (original : SceneImage) (a : Z) (context : string)
      (w : World) :
  generateSceneFromAngle original a context w
  = (sceneResult (remote w) (ncalls (trace w)),
     log (GenerateContent (sceneRequest original a context)) w).
Proof. reflexivity. Qed.

Lemma or_default_nonempty (m d : string) : d <> "" -> JS.or_default m d <> "".
Proof. intros Hd. destruct m; simpl; [exact Hd | discriminate]. Qed.

Lemma sceneResult_message (r : nat -> RemoteOutcome) (i : nat) (message : string) :
  sceneResult r i = Throw message -> message <> "".
Proof.
  unfold sceneResult, rethrow.
  destruct (settle readSceneResponse (r i)); [discriminate|].
  intros [= <-]. apply or_default_nonempty. discriminate.
Qed.

(** While the remote keeps answering with images, the loop consumes its
    angles, one delay and one call each, and publishes the sorted copy. *)
Lemma sweep_succeed (original : SceneImage) (context : string) (pre : list Z) :
  forall post ds newSequence s w,
    Forall (fun a => a <> 0) pre ->
    List.length ds = List.length pre ->
    succeed (remote w) (ncalls (trace w)) ds ->
    sweep original context (pre ++ post) newSequence s w
    = sweep original context post
            (newSequence ++ variants (uuids w) pre ds)
            (match pre with
             | [] => s
             | _ => setSequenceImages
                      (sortByAngle (newSequence ++ variants (uuids w) pre ds)) s
             end)
            (mkWorld (remote w) (trace w ++ sweepEvents original context pre)
                     (uuids w + List.length pre)).
Proof.
  induction pre as [|a pre IH]; intros post ds newSequence s w Hnz Hlen Hok.
  - destruct w as [r t u]. cbn. now rewrite !app_nil_r, Nat.add_0_r.
  - destruct ds as [|d ds]; [discriminate|].
    inversion Hnz as [|? ? Ha Hpre]; subst.
    destruct Hok as [Hd Hok]. injection Hlen as Hlen.
    cbn [app sweep]. apply Z.eqb_neq in Ha. rewrite Ha.
    rewrite generateSceneFromAngle_eq.
    assert (Hn : ncalls (trace (sleep 500 w)) = ncalls (trace w)).
    { unfold sleep, log. cbn [trace]. rewrite ncalls_app. cbn. lia. }
    change (remote (sleep 500 w)) with (remote w). rewrite Hn, Hd.
    cbn [randomUUID log sleep remote trace uuids].
    rewrite (IH post ds); [| exact Hpre | exact Hlen |].
    + cbn [remote trace uuids variants sweepEvents flat_map List.length].
      f_equal.
      * now rewrite <- app_assoc.
      * destruct pre as [|b pre].
        -- reflexivity.
        -- rewrite <- app_assoc. reflexivity.
      * f_equal; [now rewrite <- !app_assoc | lia].
    + cbn [remote trace]. rewrite !ncalls_app. cbn.
      replace (ncalls (trace w) + 0 + 1)%nat with (S (ncalls (trace w))) by lia.
      exact Hok.
Qed.

Lemma variants_firstn (u : nat) (todo : list Z) (ds : list string) :
  variants u (firstn (List.length ds) todo) ds = variants u todo ds.
Proof.
  revert u todo. induction ds as [|d ds IH]; intros u [|a todo]; cbn;
    try reflexivity. now rewrite IH.
Qed.

Lemma variants_sorted (todo : list Z) :
  forall (first : SceneImage) (u : nat) (ds : list string),
    Sorted Z.le (angle first :: todo) ->
    sortedByAngle (first :: variants u todo ds).
Proof.
  unfold sortedByAngle.
  induction todo as [|a todo IH]; intros first u ds Hs; cbn.
  - repeat constructor.
  - destruct ds as [|d ds]; [repeat constructor|].
    inversion Hs as [|? ? Htl Hhd]; subst.
    constructor.
    + apply IH. exact Htl.
    + constructor. inversion Hhd; subst. exact H0.
Qed.

Lemma variants_length (u : nat) (todo : list Z) (ds : list string) :
  (List.length ds <= List.length todo)%nat ->
  List.length (variants u todo ds) = List.length ds.
Proof.
  revert u todo. induction ds as [|d ds IH]; intros u [|a todo] Hle; cbn in *;
    try reflexivity; try lia.
  rewrite IH; [reflexivity | lia].
Qed.

Lemma split_nth (l : list Z) :
  forall n, (n < List.length l)%nat ->
            l = (firstn n l ++ nth n l 0 :: skipn (S n) l)%list
            /\ firstn (S n) l = (firstn n l ++ [nth n l 0])%list.
Proof.
  induction l as [|x l IH]; intros n Hn; cbn in Hn; [lia|].
  destruct n as [|n]; [split; reflexivity|].
  destruct (IH n ltac:(lia)) as [H1 H2].
  split.
  - cbn [firstn nth skipn app]. f_equal. exact H1.
  - change (firstn (S (S n)) (x :: l)) with (x :: firstn (S n) l).
    now rewrite H2.
Qed.

Lemma sweepAngles_nonzero : Forall (fun a => a <> 0) sweepAngles.
Proof. repeat constructor; discriminate. Qed.

(** C1, as stated, fails when the very first call of the sweep fails on
    a store that already holds a variant: the store is left as it was,
    the original plus the earlier 100-degree variant, not the original
    alone. *)
Lemma sweep_first_call_failure_keeps_old_store :
  let '(s, w) := run (upload ++ [AngleRelease 100]) initial (world (failingAfter 1)) in
  let '(s', w') := handleGenerateSequence s w in
  sceneResult (remote w) (ncalls (trace w)) = Throw "429 RESOURCE_EXHAUSTED"
  /\ ncalls (trace w') = S (ncalls (trace w))
  /\ List.map angle (sequenceImages s') = [0; 100]
  /\ List.map isOriginal (sequenceImages s') = [true; false]
  /\ (forall original, sequenceImages s' <> [original]).
Proof.
  vm_compute. repeat split; discriminate.
Qed.

(** C1, amended. In a state a session can reach, with a source uploaded,
    let the first [k-1] remote calls of a sweep answer with images and the
    [k]-th fail ([1 <= k <= 7]).  Then the sweep logs exactly [k] delays
    and [k] calls, for the first [k] sweep angles, and none after the
    failure; the error banner carries the non-empty message of the failure
    after a fixed prefix and the application is in the error state; and
    the store is exactly the original followed by the [k-1] variants, in
    order, when [k >= 2], and is left as it was before the sweep when
    [k = 1]. *)
Theorem sweep_failure_keeps_partial_results
        (actions : list Action) (w0 : World) (original : SceneImage)
        (ds : list string) (message : string) :
  let s := fst (run actions initial w0) in
  let w := snd (run actions initial w0) in
  originalImage s = Some original ->
  (List.length ds < 7)%nat ->
  succeed (remote w) (ncalls (trace w)) ds ->
  sceneResult (remote w) (ncalls (trace w) + List.length ds) = Throw message ->
  let k := S (List.length ds) in
  let s' := fst (handleGenerateSequence s w) in
  let w' := snd (handleGenerateSequence s w) in
  trace w' = (trace w ++ sweepEvents original (contextPrompt s) (firstn k sweepAngles))%list
  /\ ncalls (trace w') = (ncalls (trace w) + k)%nat
  /\ sequenceImages s'
     = match ds with
       | [] => sequenceImages s
       | _ => original :: variants (uuids w) sweepAngles ds
       end
  /\ List.length (variants (uuids w) sweepAngles ds) = List.length ds
  /\ error s' = Some ("La generación de secuencia se detuvo: " ++ message)
  /\ message <> ""
  /\ appState s' = ERROR.
Proof.
  intros s w Ho Hlen Hok Hfail k s' w'.
  pose proof (reachable_Inv actions w0) as HI. fold s in HI.
  destruct (inv_original s HI original Ho) as [_ Hangle].
  set (n := List.length ds) in *.
  assert (Hn : (n < List.length sweepAngles)%nat) by exact Hlen.
  destruct (split_nth sweepAngles n Hn) as [Hsplit Hfirst].
  set (pre := firstn n sweepAngles) in *.
  set (a := nth n sweepAngles 0) in *.
  set (post := skipn (S n) sweepAngles) in *.
  assert (Hpre : Forall (fun x => x <> 0) pre /\ a <> 0).
  { pose proof sweepAngles_nonzero as Hnz. rewrite Hsplit in Hnz.
    apply Forall_app in Hnz. destruct Hnz as [H1 H2].
    split; [exact H1 | now inversion H2]. }
  destruct Hpre as [Hpre Ha].
  assert (Hlenpre : List.length ds = List.length pre).
  { unfold pre. rewrite length_firstn. fold n. lia. }
  assert (Hrun : handleGenerateSequence s w
                 = (setAppState ERROR
                      (setError
                         (Some ("La generación de secuencia se detuvo: " ++ message))
                         (match pre with
                          | [] => setError None (setAppState GENERATING_SEQUENCE s)
                          | _ => setSequenceImages
                                   (sortByAngle ([original] ++ variants (uuids w) pre ds))
                                   (setError None (setAppState GENERATING_SEQUENCE s))
                          end)),
                    log (GenerateContent (sceneRequest original a (contextPrompt s)))
                        (sleep 500
                           (mkWorld (remote w)
                                    (trace w ++ sweepEvents original (contextPrompt s) pre)
                                    (uuids w + List.length pre))))).
  { unfold handleGenerateSequence. rewrite Ho.
    change angles with (0 :: sweepAngles). cbn [sweep Z.eqb]. rewrite Hsplit.
    rewrite (sweep_succeed original (contextPrompt s) pre (a :: post) ds);
      [| exact Hpre | exact Hlenpre | exact Hok].
    cbn [sweep]. apply Z.eqb_neq in Ha. rewrite Ha.
    rewrite generateSceneFromAngle_eq.
    match goal with
    | |- context [sceneResult ?r ?i] =>
        replace (sceneResult r i) with (@Throw string message)
    end.
    - reflexivity.
    - rewrite <- Hfail. unfold sleep, log. cbn [trace remote]. f_equal.
      rewrite !ncalls_app, ncalls_sweepEvents. cbn. lia. }
  subst s' w'. rewrite Hrun. cbn [fst snd].
  split.
  { unfold sleep, log. cbn [trace remote uuids]. unfold k. rewrite Hfirst.
    unfold sweepEvents. rewrite flat_map_app. cbn [flat_map].
    rewrite <- !app_assoc. reflexivity. }
  split.
  { unfold sleep, log. cbn [trace remote uuids].
    rewrite !ncalls_app, ncalls_sweepEvents. cbn. unfold k. lia. }
  split.
  { destruct ds as [|d ds'].
    - destruct pre; [reflexivity | discriminate].
    - destruct pre as [|b pre'] eqn:Epre; [discriminate|].
      cbn [sequenceImages setAppState setError setSequenceImages].
      rewrite <- Epre. unfold pre, n. rewrite variants_firstn.
      apply sort_sorted_id. apply variants_sorted. rewrite Hangle.
      repeat constructor; lia. }
  split.
  { apply variants_length. cbn. lia. }
  split; [reflexivity|].
  split; [eapply sceneResult_message; eassumption | reflexivity].
Qed.

End Sweep.

(** ** The properties at sample inputs *)

Section Witnesses.
Import GeminiService App Predicates Samples.

(** A sweep whose fourth call is rejected: three variants are kept. *)
Lemma sweep_failure_keeps_partial_results_witness :
  List.map angle
           (sequenceImages
              (fst (handleGenerateSequence
                      (fst (run upload initial (world (failingAfter 3))))
                      (snd (run upload initial (world (failingAfter 3)))))))
  = [0; 45; 90; 135].
Proof.
  pose proof (sweep_failure_keeps_partial_results
                upload (world (failingAfter 3)) source
                [pngUrl; pngUrl; pngUrl] "429 RESOURCE_EXHAUSTED"
                eq_refl ltac:(vm_compute; lia)
                ltac:(repeat split; reflexivity) eq_refl) as H.
  cbv zeta in H. destruct H as [_ [_ [H _]]].
  exact (eq_trans (f_equal (List.map angle) H) eq_refl).
Defined.


(** 355 degrees on a fresh store. *)
Lemma origin_snap_issues_no_remote_call_witness :
  handleAngleRelease 355 (fst (run upload initial (world (failingAfter 0))))
                     (world (failingAfter 0))
  = (setCurrentImage (Some source) (fst (run upload initial (world (failingAfter 0)))),
     world (failingAfter 0)).
Proof.
  refine (proj1 (origin_snap_issues_no_remote_call
                   (fst (run upload initial (world (failingAfter 0))))
                   (world (failingAfter 0)) source 355 _ _));
    [reflexivity | right; lia].
Defined.


(** Sharpening the freshly uploaded image. *)
Lemma enhancement_replaces_in_place_witness :
  sequenceImages (fst (handleEnhancement "Mejorar Nitidez y Detalles" "Detalles"
                         (fst (run upload initial (world (failingAfter 1))))
                         (snd (run upload initial (world (failingAfter 1))))))
  = [mkSceneImage 1 pngUrl "image/png" 0 false].
Proof.
  destruct (enhancement_replaces_in_place
              "Mejorar Nitidez y Detalles" "Detalles"
              (fst (run upload initial (world (failingAfter 1))))
              (snd (run upload initial (world (failingAfter 1))))
              source pngUrl eq_refl eq_refl _ (or_introl eq_refl))
    as [_ [_ [_ [H _]]]].
  rewrite H. reflexivity.
Defined.

(** Forty pixels to the right over the eight views. *)
Lemma scrub_full_turn_identity_witness :
  ImageDisplay.newIndex 3 (440 - 400) 8 = 3.
Proof.
  refine (proj1 (proj2 (proj2
            (scrub_full_turn_identity
               (ImageDisplay.mkProps (Some source) eightViews) dragging
               (ImageDisplay.mkMouseEvent 440 300) _ _ _ _ _ _ _))));
    try reflexivity; [cbn; lia | discriminate | left; reflexivity].
Defined.

(** Seventeen pixels to the left over the eight views. *)
Lemma scrub_index_in_bounds_witness :
  0 <= ImageDisplay.newIndex 1 (-17) 8 < 8.
Proof.
  refine (proj1 (scrub_index_in_bounds
                   (ImageDisplay.mkProps (Some source) eightViews) 1 (-17) _)).
  discriminate.
Defined.

(** 63 degrees and -30 degrees, without rounding. *)
Lemma angle_description_is_cardinal_witness :
  getAngleDescription exact 63 = PerfilDerecho
  /\ (0 <= normAngle exact (-30 # 1) < 360)%Q.
Proof.
  split; [reflexivity|].
  exact (proj1 (angle_description_is_cardinal exact (-30 # 1) (fun x H => H))).
Defined.

End Witnesses.

(** * Further properties of the code *)

(** ** The viewer: zoom, pan and the start of a drag *)

Section ViewerZoom.
Import ImageDisplay.

Lemma clamp_range (x : Q) : (1 <= Qmin (Qmax 1 x) 5 <= 5)%Q.
Proof.
  destruct (Q.max_spec 1 x) as [[H1 H2] | [H1 H2]];
    destruct (Q.min_spec (Qmax 1 x) 5) as [[H3 H4] | [H3 H4]]; lra.
Qed.

Lemma clamp_monotone (x y : Q) :
  (x <= y)%Q -> (Qmin (Qmax 1 x) 5 <= Qmin (Qmax 1 y) 5)%Q.
Proof.
  intros Hxy.
  destruct (Q.max_spec 1 x) as [[H1 H2] | [H1 H2]];
    destruct (Q.min_spec (Qmax 1 x) 5) as [[H3 H4] | [H3 H4]];
    destruct (Q.max_spec 1 y) as [[H5 H6] | [H5 H6]];
    destruct (Q.min_spec (Qmax 1 y) 5) as [[H7 H8] | [H7 H8]]; lra.
Qed.

Lemma clamp_fixed (x : Q) : (1 <= x <= 5)%Q -> (Qmin (Qmax 1 x) 5 == x)%Q.
Proof.
  intros Hx.
  destruct (Q.max_spec 1 x) as [[H1 H2] | [H1 H2]];
    destruct (Q.min_spec (Qmax 1 x) 5) as [[H3 H4] | [H3 H4]]; lra.
Qed.

(** X1. A wheel event keeps the zoom scale within [1, 5] whatever its
    delta; scrolling up never zooms out and scrolling down never zooms in;
    when the scale comes back to 1 the pan offset is reset to the origin and
    otherwise it is kept; in compare mode or without an image the event
    changes nothing. *)
Theorem wheel_keeps_zoom_in_range (p : Props) (deltaY : Q) (v : Viewer) :
  (1 <= scale v <= 5)%Q ->
  let v' := handleWheel p deltaY v in
  (1 <= scale v' <= 5)%Q
  /\ ((deltaY <= 0)%Q -> (scale v <= scale v')%Q)
  /\ ((0 <= deltaY)%Q -> (scale v' <= scale v)%Q)
  /\ (isCompareMode v = false -> image p <> None ->
      ((scale v' == 1)%Q -> translate v' = (0, 0))
      /\ (~ (scale v' == 1)%Q -> translate v' = translate v))
  /\ (isCompareMode v = true \/ image p = None -> v' = v).
Proof.
  intros Hs v'. subst v'. unfold handleWheel.
  destruct (isCompareMode v) eqn:Hc.
  { repeat split; try lra; try discriminate; reflexivity. }
  destruct (image p) as [img|] eqn:Hi.
  2:{ repeat split; try lra; try congruence; reflexivity. }
  cbn [scale translate].
  pose proof (clamp_range (scale v - deltaY * (1 # 1000))) as Hr.
  pose proof (clamp_fixed (scale v) Hs) as Hf.
  split; [exact Hr|]. split; [|split; [|split]].
  - intros Hd. rewrite <- Hf at 1. apply clamp_monotone. lra.
  - intros Hd. rewrite <- Hf at 2. apply clamp_monotone. lra.
  - intros _ _. split.
    + intros H1. apply Qeq_bool_iff in H1. now rewrite H1.
    + intros H1.
      destruct (Qeq_bool (Qmin (Qmax 1 (scale v - deltaY * (1 # 1000))) 5) 1) eqn:E;
        [|reflexivity].
      apply Qeq_bool_iff in E. contradiction.
  - intros [H | H]; discriminate.
Qed.

Lemma findIndex_from_spec {A : Type} (f : A -> bool) (l : list A) :
  forall i,
    (JS.findIndex_from f l i = -1 /\ forall x, In x l -> f x = false)
    \/ (i <= JS.findIndex_from f l i < i + Z.of_nat (List.length l)
        /\ exists x, nth_error l (Z.to_nat (JS.findIndex_from f l i - i)) = Some x
                     /\ f x = true).
Proof.
  induction l as [|y l IH]; intros i; cbn [JS.findIndex_from].
  - left. split; [reflexivity | intros x []].
  - destruct (f y) eqn:Hy.
    + right. split; [cbn [List.length]; lia|].
      exists y. rewrite Z.sub_diag. split; [reflexivity | exact Hy].
    + destruct (IH (i + 1)) as [[H1 H2] | [H1 [x [H2 H3]]]].
      * left. split; [exact H1|]. intros x [<- | Hx]; auto.
      * right. split; [cbn [List.length]; lia|].
        exists x. split; [|exact H3].
        replace (Z.to_nat (JS.findIndex_from f l (i + 1) - i))
          with (S (Z.to_nat (JS.findIndex_from f l (i + 1) - (i + 1)))) by lia.
        exact H2.
Qed.

Lemma mouse_down_spec
        (p : Props) (e : MouseEvent) (v : Viewer) (img : SceneImage) :
  isCompareMode v = false -> image p = Some img -> zoomed v = false ->
  sequenceImages p <> [] ->
  let v' := handleMouseDown p e v in
  isDragging v' = true /\ startX v' = clientX e
  /\ 0 <= startIndex v' < Z.of_nat (List.length (sequenceImages p))
  /\ ((exists x, In x (sequenceImages p) /\ id x = id img) ->
      exists x, JS.index (sequenceImages p) (startIndex v') = Some x /\ id x = id img)
  /\ ((forall x, In x (sequenceImages p) -> id x <> id img) -> startIndex v' = 0).
Proof.
  intros Hc Hi Hz Hne v'. subst v'. unfold handleMouseDown.
  rewrite Hc, Hi, Hz. unfold isSequenceActive.
  destruct (sequenceImages p) as [|y l] eqn:Hseq; [congruence|].
  rewrite <- Hseq. replace (0 <? List.length (sequenceImages p))%nat with true
    by (rewrite Hseq; reflexivity).
  cbn [isDragging startX startIndex isCompareMode startY scale translate startTranslate].
  unfold JS.findIndex.
  destruct (findIndex_from_spec (sameId (Some img)) (sequenceImages p) 0)
    as [[H1 H2] | [H1 [x [H2 H3]]]].
  - rewrite H1. rewrite Z.eqb_refl.
    assert (Hlen : 0 < Z.of_nat (List.length (sequenceImages p)))
      by (rewrite Hseq; cbn [List.length]; lia).
    split; [reflexivity|]. split; [reflexivity|]. split; [lia|]. split.
    + intros [x [Hx Hid]]. specialize (H2 x Hx). cbn in H2.
      apply Nat.eqb_neq in H2. contradiction.
    + intros _. reflexivity.
  - set (k := JS.findIndex_from (sameId (Some img)) (sequenceImages p) 0) in *.
    assert (Hk : (k =? -1) = false) by (apply Z.eqb_neq; lia).
    rewrite Hk. rewrite Z.sub_0_r in H2. cbn in H3. apply Nat.eqb_eq in H3.
    split; [reflexivity|]. split; [reflexivity|]. split; [lia|]. split.
    + intros _. exists x. split; [|exact H3].
      unfold JS.index. destruct (Z.ltb_spec k 0); [lia | exact H2].
    + intros Hnone. exfalso. apply (Hnone x); [|exact H3].
      eapply nth_error_In; eassumption.
Qed.

(** X2. Pressing the mouse on the viewer at rest scale, over a non-empty
    sequence, starts a drag at a valid index of the sequence: the index of
    the first image with the id of the displayed one when there is such an
    image, and index 0 otherwise. *)
Theorem mouse_down_starts_at_displayed_image
        (p : Props) (e : MouseEvent) (v : Viewer) (img : SceneImage) :
  isCompareMode v = false -> image p = Some img -> zoomed v = false ->
  sequenceImages p <> [] ->
  let v' := handleMouseDown p e v in
  isDragging v' = true /\ startX v' = clientX e
  /\ 0 <= startIndex v' < Z.of_nat (List.length (sequenceImages p))
  /\ ((exists x, In x (sequenceImages p) /\ id x = id img) ->
      exists x, JS.index (sequenceImages p) (startIndex v') = Some x /\ id x = id img)
  /\ ((forall x, In x (sequenceImages p) -> id x <> id img) -> startIndex v' = 0).
Proof. exact (mouse_down_spec p e v img). Qed.

End ViewerZoom.

(** ** The viewer: what a move can and cannot do *)

Section ViewerMoves.
Import ImageDisplay.

Lemma newIndex_still (startIndex length : Z) :
  0 <= startIndex < length -> newIndex startIndex 0 length = startIndex.
Proof.
  intros H. rewrite newIndex_mod by lia. unfold sensitivity.
  rewrite Z.div_0_l by lia. rewrite Z.sub_0_r. now apply Z.mod_small.
Qed.

(** X3. A press followed by a move to the same horizontal position, at
    rest scale over a non-empty sequence, selects nothing when the
    displayed image is in the sequence; when it is not (its id matches no
    entry), the move selects the first image of the sequence. *)
Theorem press_without_drag (p : Props) (e e' : MouseEvent) (v : Viewer)
        (img : SceneImage) :
  isCompareMode v = false -> image p = Some img -> zoomed v = false ->
  sequenceImages p <> [] ->
  clientX e' = clientX e ->
  let moved := handleMouseMove p e' (handleMouseDown p e v) in
  ((exists x, In x (sequenceImages p) /\ id x = id img) -> snd moved = None)
  /\ ((forall x, In x (sequenceImages p) -> id x <> id img) ->
      snd moved = List.hd_error (sequenceImages p)).
Proof.
  intros Hc Hi Hz Hne Hx moved.
  destruct (mouse_down_spec p e v img Hc Hi Hz Hne)
    as [Hd [Hsx [Hrange [Hin Hout]]]].
  assert (Hkeep : isCompareMode (handleMouseDown p e v) = false
                  /\ zoomed (handleMouseDown p e v) = false).
  { unfold handleMouseDown. rewrite Hc, Hi, Hz.
    destruct (isSequenceActive p); cbn; unfold zoomed in Hz; auto. }
  destruct Hkeep as [Hc' Hz'].
  assert (Hactive : isSequenceActive p = true).
  { unfold isSequenceActive. destruct (sequenceImages p); [congruence | reflexivity]. }
  assert (Hmove : moved
                  = match JS.index (sequenceImages p)
                                   (startIndex (handleMouseDown p e v)) with
                    | Some selectedImage =>
                        if sameId (image p) selectedImage
                        then (handleMouseDown p e v, None)
                        else (handleMouseDown p e v, Some selectedImage)
                    | None => (handleMouseDown p e v, None)
                    end).
  { subst moved. unfold handleMouseMove. rewrite Hd, Hc', Hi, Hz', Hactive.
    rewrite Hx, Hsx, Z.sub_diag. now rewrite newIndex_still. }
  rewrite Hmove. split.
  - intros Hex. destruct (Hin Hex) as [x [Hget Hid]]. rewrite Hget.
    rewrite Hi. cbn [sameId]. apply Nat.eqb_eq in Hid. now rewrite Hid.
  - intros Hnone. rewrite (Hout Hnone).
    destruct (sequenceImages p) as [|y l] eqn:Hseq; [congruence|].
    cbn. rewrite Hi. cbn [sameId].
    assert (Hy : Nat.eqb (id y) (id img) = false).
    { apply Nat.eqb_neq. apply Hnone. now left. }
    now rewrite Hy.
Qed.

(** X4. Scrubbing and panning exclude each other.  An image handed to
    [onAngleSelect] is always an entry of the sequence whose id differs from
    the displayed image's, and that only happens during a drag, outside
    compare mode and at rest scale, leaving the viewer's own state alone;
    while zoomed in, a move selects nothing, and during a drag it pans by
    exactly the pointer displacement since the press. *)
Theorem move_scrubs_or_pans (p : Props) (e : MouseEvent) (v : Viewer) :
  (forall img,
      snd (handleMouseMove p e v) = Some img ->
      In img (sequenceImages p) /\ sameId (image p) img = false
      /\ isDragging v = true /\ isCompareMode v = false /\ zoomed v = false
      /\ fst (handleMouseMove p e v) = v)
  /\ (zoomed v = true ->
      snd (handleMouseMove p e v) = None
      /\ (isDragging v = true -> isCompareMode v = false -> image p <> None ->
          translate (fst (handleMouseMove p e v))
          = (fst (startTranslate v) + (clientX e - startX v),
             snd (startTranslate v) + (clientY e - startY v))))
  /\ (zoomed v = false -> fst (handleMouseMove p e v) = v).
Proof.
  unfold handleMouseMove.
  destruct (isDragging v) eqn:Hd; [|repeat split; try discriminate; reflexivity].
  destruct (isCompareMode v) eqn:Hc; [repeat split; try discriminate; reflexivity|].
  destruct (image p) as [cur|] eqn:Hi;
    [|repeat split; try discriminate; try congruence; reflexivity].
  destruct (zoomed v) eqn:Hz.
  { repeat split; try discriminate; reflexivity. }
  destruct (isSequenceActive p);
    [|repeat split; try discriminate; reflexivity].
  destruct (JS.index (sequenceImages p) _) as [sel|] eqn:Hget;
    [|repeat split; try discriminate; reflexivity].
  destruct (sameId (Some cur) sel) eqn:Hs;
    [repeat split; try discriminate; reflexivity|].
  split; [|split; [discriminate | reflexivity]].
  intros img [= <-]. apply index_In in Hget. auto 10.
Qed.

Lemma show_parses (n : Z) :
  NilZero.int_of_string (JS.show n) = Some (Z.to_int n).
Proof.
  unfold JS.show.
  apply NilZero.isi; intros H; destruct n as [|q|q]; cbn in H; try discriminate;
    injection H as H; now apply DecimalPos.Unsigned.to_uint_nonnil in H.
Qed.

Lemma show_injective (a b : Z) : JS.show a = JS.show b -> a = b.
Proof.
  intros H. apply (f_equal NilZero.int_of_string) in H.
  rewrite !show_parses in H. injection H as H. now apply DecimalZ.to_int_inj.
Qed.

Lemma append_cancel_r (t : string) :
  forall s1 s2 : string, (s1 ++ t = s2 ++ t)%string -> s1 = s2.
Proof.
  assert (Hlen : forall s u : string,
             String.length (s ++ u) = (String.length s + String.length u)%nat).
  { induction s as [|c s IH]; intros u; cbn; [reflexivity | now rewrite IH]. }
  induction s1 as [|c s1 IH]; intros [|d s2] H; cbn in H.
  - reflexivity.
  - apply (f_equal String.length) in H. cbn in H. rewrite Hlen in H. lia.
  - apply (f_equal String.length) in H. cbn in H. rewrite Hlen in H. lia.
  - injection H as -> H. f_equal. now apply IH.
Qed.

(** X5. The download link carries the image data and a file name made
    from the angle (angles below 10^21 in magnitude, which print in plain
    decimal): an image at angle 0 (the original, or an enhanced
    front view) is saved as vision-ai-result.png and no other image is, and
    two images get the same file name exactly when they have the same
    angle; without a displayed image nothing is downloaded. *)
Theorem download_named_by_angle (p : Props) (a b : SceneImage) :
  Z.abs (angle a) < 10 ^ 21 -> Z.abs (angle b) < 10 ^ 21 ->
  (downloadName a = "vision-ai-result.png" <-> angle a = 0)
  /\ (downloadName a = downloadName b <-> angle a = angle b)
  /\ (image p = None <-> downloadImage p = None)
  /\ (image p = Some a -> downloadImage p = Some (data a, downloadName a)).
Proof.
  intros _ _.
  assert (Hres : forall n, JS.show n <> "result").
  { intros n H. pose proof (show_parses n) as Hp. rewrite H in Hp. discriminate. }
  assert (Hname : forall x y,
             downloadName x = downloadName y ->
             (if angle x =? 0 then "result" else JS.show (angle x))
             = (if angle y =? 0 then "result" else JS.show (angle y))).
  { intros x y H. unfold downloadName in H.
    apply (append_cancel_r ".png").
    cbn in H. injection H as H. exact H. }
  split; [|split; [|split]].
  - split.
    + intros H. change "vision-ai-result.png" with
        ("vision-ai-" ++ "result" ++ ".png")%string in H.
      destruct (Z.eqb_spec (angle a) 0) as [E | E]; [exact E|].
      exfalso. unfold downloadName in H. cbn in H. injection H as H.
      change "result.png" with ("result" ++ ".png")%string in H.
      apply (append_cancel_r ".png") in H.
      apply Z.eqb_neq in E. rewrite E in H. now apply Hres in H.
    + intros H. unfold downloadName. rewrite H. reflexivity.
  - split.
    + intros H. apply Hname in H.
      destruct (Z.eqb_spec (angle a) 0) as [Ea | Ea];
        destruct (Z.eqb_spec (angle b) 0) as [Eb | Eb].
      * congruence.
      * symmetry in H. now apply Hres in H.
      * now apply Hres in H.
      * now apply show_injective.
    + intros H. unfold downloadName. now rewrite H.
  - unfold downloadImage. destruct (image p); split; congruence.
  - intros H. unfold downloadImage. now rewrite H.
Qed.

End ViewerMoves.

(** ** The comparator slider *)

Section Comparator.
Import ImageComparator.
Local Open Scope Q_scope.

(** X6. Over a container of positive width, a move during a drag sets
    the split to the pointer's horizontal position as a percentage of the
    width, clamped: 0 at or left of the container's left edge, 100 at or
    right of its right edge, and between 0 and 100 always; of a touch event
    only the first touch counts.  Outside a drag, or without a mounted
    container, the split stays where it was. *)
Theorem slider_stays_on_the_image (rect : DOMRect) (e : PointerInput) (s : Slider) :
  0 < width rect ->
  let clientX := match e with Mouse x => x | Touch x _ => x end in
  let moved := handleMouseMove (Some rect) e (handleMouseDown s) in
  0 <= sliderPosition moved <= 100
  /\ (clientX <= left rect -> sliderPosition moved == 0)
  /\ (left rect + width rect <= clientX -> sliderPosition moved == 100)
  /\ (left rect <= clientX <= left rect + width rect ->
      sliderPosition moved == (clientX - left rect) / width rect * 100)
  /\ handleMouseMove (Some rect) e (handleMouseUp s) = handleMouseUp s
  /\ handleMouseMove None e s = s.
Proof.
  intros Hw clientX moved. subst moved. unfold handleMouseMove, handleMouseDown, handleMouseUp.
  cbn [isDragging sliderPosition]. fold clientX.
  set (d := clientX - left rect).
  set (x := Qmax 0 (Qmin d (width rect))).
  assert (Hx : 0 <= x <= width rect
               /\ (d <= 0 -> x == 0) /\ (width rect <= d -> x == width rect)
               /\ (0 <= d <= width rect -> x == d)).
  { unfold x.
    destruct (Q.min_spec d (width rect)) as [[H1 H2] | [H1 H2]];
      destruct (Q.max_spec 0 (Qmin d (width rect))) as [[H3 H4] | [H3 H4]];
      repeat split; intros; lra. }
  destruct Hx as [[Hx0 Hx1] [Hlo [Hhi Hmid]]].
  assert (Hdiv : x / width rect * 100 == 100 * x / width rect) by (field; lra).
  assert (Hpos : 0 <= x / width rect <= 1).
  { split.
    - apply Qle_shift_div_l; [exact Hw | lra].
    - apply Qle_shift_div_r; [exact Hw | lra]. }
  split; [lra|]. split; [|split; [|split; [|split]]].
  - intros H. rewrite (Hlo ltac:(unfold d; lra)). field. lra.
  - intros H. rewrite (Hhi ltac:(unfold d; lra)). field. lra.
  - intros H. rewrite (Hmid ltac:(unfold d; lra)). reflexivity.
  - reflexivity.
  - destruct (isDragging s); reflexivity.
Qed.

End Comparator.

(** ** The knob: labels and callbacks *)

Section KnobLabels.
Import GeminiService KnobControl.
Local Open Scope Q_scope.

Lemma Qrem_360_small (a : Q) : 0 <= a < 360 -> JS.Qrem a 360 == a.
Proof.
  intros Ha. unfold JS.Qrem, JS.Qtrunc.
  set (q := a / 360).
  assert (Hq : a == 360 * q) by (unfold q; field).
  assert (Hq0 : 0 <= q) by lra.
  apply Qle_bool_iff in Hq0. rewrite Hq0.
  assert (Hf : Qfloor q = 0%Z).
  { pose proof (Qfloor_le q) as Hlo. pose proof (Qlt_floor q) as Hhi.
    rewrite inject_Z_plus in Hhi. change (inject_Z 1) with 1 in Hhi.
    assert (H1 : (inject_Z (Qfloor q) < inject_Z 1)) by (change (inject_Z 1) with 1; lra).
    assert (H2 : (inject_Z (-1) < inject_Z (Qfloor q)))
      by (change (inject_Z (-1)) with (-(1)); lra).
    rewrite <- Zlt_Qlt in H1, H2. lia. }
  rewrite Hf. change (inject_Z 0) with 0. lra.
Qed.

Lemma Qrem_360_wrap (a : Q) : 360 <= a < 720 -> JS.Qrem a 360 == a - 360.
Proof.
  intros Ha. unfold JS.Qrem, JS.Qtrunc.
  set (q := a / 360).
  assert (Hq : a == 360 * q) by (unfold q; field).
  assert (Hq0 : 0 <= q) by lra.
  apply Qle_bool_iff in Hq0. rewrite Hq0.
  assert (Hf : Qfloor q = 1%Z).
  { pose proof (Qfloor_le q) as Hlo. pose proof (Qlt_floor q) as Hhi.
    rewrite inject_Z_plus in Hhi. change (inject_Z 1) with 1 in Hhi.
    assert (H1 : (inject_Z (Qfloor q) < inject_Z 2)) by (change (inject_Z 2) with 2; lra).
    assert (H2 : (inject_Z 0 < inject_Z (Qfloor q)))
      by (change (inject_Z 0) with 0; lra).
    rewrite <- Zlt_Qlt in H1, H2. lia. }
  rewrite Hf. change (inject_Z 1) with 1. lra.
Qed.

(** On [0, 360] without rounding, normalising an angle only folds 360 to 0. *)
Lemma normAngle_exact (a : Q) :
  0 <= a <= 360 ->
  (a < 360 -> normAngle exact a == a) /\ (a == 360 -> normAngle exact a == 0).
Proof.
  intros Ha. unfold normAngle, exact. split.
  - intros Hlt.
    pose proof (Qrem_360_small a ltac:(lra)) as H1.
    assert (H2 : 360 <= JS.Qrem a 360 + 360 < 720) by lra.
    pose proof (Qrem_360_wrap _ H2). lra.
  - intros Heq.
    assert (H1 : JS.Qrem a 360 == 0).
    { pose proof (Qrem_360_wrap a ltac:(lra)). lra. }
    assert (H2 : 360 <= JS.Qrem a 360 + 360 < 720) by lra.
    pose proof (Qrem_360_wrap _ H2). lra.
Qed.

Lemma description_by_range (a : Q) :
  0 <= a <= 360 ->
  (getAngleDescription exact a = Frente /\ (315 <= a \/ a < 45))
  \/ (getAngleDescription exact a = PerfilDerecho /\ 45 <= a < 135)
  \/ (getAngleDescription exact a = Espalda /\ 135 <= a < 225)
  \/ (getAngleDescription exact a = PerfilIzquierdo /\ 225 <= a < 315).
Proof.
  intros Ha. destruct (normAngle_exact a Ha) as [Hlt Heq].
  assert (Hn : normAngle exact a == a \/ (a == 360 /\ normAngle exact a == 0)).
  { destruct (Qlt_le_dec a 360); [left; auto | right].
    assert (a == 360) by lra. auto. }
  unfold getAngleDescription. set (n := normAngle exact a) in *.
  destruct (Qge_bool_spec n 315); simpl;
    [left; split; [reflexivity | lra]|].
  destruct (Qlt_bool_spec n 45); simpl;
    [left; split; [reflexivity | lra]|].
  destruct (Qge_bool_spec n 45); simpl; [|lra].
  destruct (Qlt_bool_spec n 135); simpl;
    [right; left; split; [reflexivity | lra]|].
  destruct (Qge_bool_spec n 135); simpl; [|lra].
  destruct (Qlt_bool_spec n 225); simpl;
    [right; right; left; split; [reflexivity | lra]|].
  destruct (Qge_bool_spec n 225); simpl; [|lra].
  destruct (Qlt_bool_spec n 315); simpl; [|lra].
  right; right; right; split; [reflexivity | lra].
Qed.

Lemma label_by_range (a : Q) :
  (getDirectionLabel a = "Frente (0°)"%string /\ ((675 # 2) <= a \/ a < (45 # 2)))
  \/ (getDirectionLabel a = "Frente-Der"%string /\ (45 # 2) <= a < (135 # 2))
  \/ (getDirectionLabel a = "Derecha (90°)"%string /\ (135 # 2) <= a < (225 # 2))
  \/ (getDirectionLabel a = "Atrás-Der"%string /\ (225 # 2) <= a < (315 # 2))
  \/ (getDirectionLabel a = "Atrás (180°)"%string /\ (315 # 2) <= a < (405 # 2))
  \/ (getDirectionLabel a = "Atrás-Izq"%string /\ (405 # 2) <= a < (495 # 2))
  \/ (getDirectionLabel a = "Izquierda (270°)"%string /\ (495 # 2) <= a < (585 # 2))
  \/ (getDirectionLabel a = "Frente-Izq"%string /\ (585 # 2) <= a < (675 # 2)).
Proof.
  unfold getDirectionLabel. cbv zeta.
  destruct (Qge_bool_spec a (675 # 2)); simpl; [left; split; [reflexivity | lra]|].
  destruct (Qlt_bool_spec a (45 # 2)); simpl; [left; split; [reflexivity | lra]|].
  destruct (Qge_bool_spec a (45 # 2)); simpl; [|lra].
  destruct (Qlt_bool_spec a (135 # 2)); simpl;
    [right; left; split; [reflexivity | lra]|].
  destruct (Qge_bool_spec a (135 # 2)); simpl; [|lra].
  destruct (Qlt_bool_spec a (225 # 2)); simpl;
    [do 2 right; left; split; [reflexivity | lra]|].
  destruct (Qge_bool_spec a (225 # 2)); simpl; [|lra].
  destruct (Qlt_bool_spec a (315 # 2)); simpl;
    [do 3 right; left; split; [reflexivity | lra]|].
  destruct (Qge_bool_spec a (315 # 2)); simpl; [|lra].
  destruct (Qlt_bool_spec a (405 # 2)); simpl;
    [do 4 right; left; split; [reflexivity | lra]|].
  destruct (Qge_bool_spec a (405 # 2)); simpl; [|lra].
  destruct (Qlt_bool_spec a (495 # 2)); simpl;
    [do 5 right; left; split; [reflexivity | lra]|].
  destruct (Qge_bool_spec a (495 # 2)); simpl; [|lra].
  destruct (Qlt_bool_spec a (585 # 2)); simpl;
    [do 6 right; left; split; [reflexivity | lra]|].
  destruct (Qge_bool_spec a (585 # 2)); simpl; [|lra].
  destruct (Qlt_bool_spec a (675 # 2)); simpl; [|lra].
  do 7 right. split; [reflexivity | lra].
Qed.



Ltac agree :=
  intros ?H; try discriminate; try reflexivity;
  solve [left; split; [lra | reflexivity] | right; split; [lra | reflexivity]].

(** Label and description of a number of [0, 360], in exact arithmetic. *)
Lemma label_and_description (a : Q) :
  0 <= a <= 360 ->
  let label := getDirectionLabel a in
  let description := getAngleDescription exact a in
  (label = "Frente (0°)"%string -> description = Frente)
  /\ (label = "Derecha (90°)"%string -> description = PerfilDerecho)
  /\ (label = "Atrás (180°)"%string -> description = Espalda)
  /\ (label = "Izquierda (270°)"%string -> description = PerfilIzquierdo)
  /\ (label = "Frente-Der"%string ->
      (a < 45 /\ description = Frente) \/ (45 <= a /\ description = PerfilDerecho))
  /\ (label = "Atrás-Der"%string ->
      (a < 135 /\ description = PerfilDerecho) \/ (135 <= a /\ description = Espalda))
  /\ (label = "Atrás-Izq"%string ->
      (a < 225 /\ description = Espalda) \/ (225 <= a /\ description = PerfilIzquierdo))
  /\ (label = "Frente-Izq"%string ->
      (a < 315 /\ description = PerfilIzquierdo) \/ (315 <= a /\ description = Frente)).
Proof.
  intros Ha label description. subst label description.
  destruct (description_by_range a Ha) as [[D HD] | [[D HD] | [[D HD] | [D HD]]]];
    destruct (label_by_range a)
      as [[E H] | [[E H] | [[E H] | [[E H] | [[E H] | [[E H] | [[E H] | [E H]]]]]]]];
    rewrite D, E; try solve [exfalso; intuition lra];
    repeat (split; [agree|]); agree.
Qed.

(** X8. For an integer knob value in [0, 360], the description sent to
    the remote model agrees with the label the knob shows whenever that
    label is a cardinal one; under a diagonal label the model is told the
    cardinal on the value's side of the 45-degree boundary. *)
Theorem knob_label_agrees_with_description (value : Z) :
  (0 <= value <= 360)%Z ->
  let label := getDirectionLabel (inject_Z value) in
  let description := getAngleDescription exact (inject_Z value) in
  (label = "Frente (0°)"%string -> description = Frente)
  /\ (label = "Derecha (90°)"%string -> description = PerfilDerecho)
  /\ (label = "Atrás (180°)"%string -> description = Espalda)
  /\ (label = "Izquierda (270°)"%string -> description = PerfilIzquierdo)
  /\ (label = "Frente-Der"%string ->
      ((value < 45)%Z /\ description = Frente)
      \/ ((45 <= value)%Z /\ description = PerfilDerecho))
  /\ (label = "Atrás-Der"%string ->
      ((value < 135)%Z /\ description = PerfilDerecho)
      \/ ((135 <= value)%Z /\ description = Espalda))
  /\ (label = "Atrás-Izq"%string ->
      ((value < 225)%Z /\ description = Espalda)
      \/ ((225 <= value)%Z /\ description = PerfilIzquierdo))
  /\ (label = "Frente-Izq"%string ->
      ((value < 315)%Z /\ description = PerfilIzquierdo)
      \/ ((315 <= value)%Z /\ description = Frente)).
Proof.
  intros Hv label description.
  assert (Ha : 0 <= inject_Z value <= 360).
  { change 0 with (inject_Z 0). change 360 with (inject_Z 360).
    rewrite <- !Zle_Qle. exact Hv. }
  destruct (label_and_description (inject_Z value) Ha)
    as [H1 [H2 [H3 [H4 [H5 [H6 [H7 H8]]]]]]].
  fold label description in H1, H2, H3, H4, H5, H6, H7, H8.
  repeat (split; [assumption|]).
  assert (Hlt : forall k : Z, inject_Z value < inject_Z k -> (value < k)%Z).
  { intros k H. now rewrite Zlt_Qlt. }
  assert (Hle : forall k : Z, inject_Z k <= inject_Z value -> (k <= value)%Z).
  { intros k H. now rewrite Zle_Qle. }
  split; [|split; [|split]]; intros Hl.
  - destruct (H5 Hl) as [[Hk Hd] | [Hk Hd]];
      [left; split; [exact (Hlt 45%Z Hk) | exact Hd]
      | right; split; [exact (Hle 45%Z Hk) | exact Hd]].
  - destruct (H6 Hl) as [[Hk Hd] | [Hk Hd]];
      [left; split; [exact (Hlt 135%Z Hk) | exact Hd]
      | right; split; [exact (Hle 135%Z Hk) | exact Hd]].
  - destruct (H7 Hl) as [[Hk Hd] | [Hk Hd]];
      [left; split; [exact (Hlt 225%Z Hk) | exact Hd]
      | right; split; [exact (Hle 225%Z Hk) | exact Hd]].
  - destruct (H8 Hl) as [[Hk Hd] | [Hk Hd]];
      [left; split; [exact (Hlt 315%Z Hk) | exact Hd]
      | right; split; [exact (Hle 315%Z Hk) | exact Hd]].
Qed.

End KnobLabels.

Section KnobCallbacks.
Import KnobControl.

Lemma calculateAngle_range (knob : option DOMRect) (clientX clientY : R) :
  0 <= calculateAngle knob clientX clientY <= 360.
Proof.
  destruct knob as [rect|]; cbn [calculateAngle]; [|lia].
  set (raw := rawAngle _ _).
  pose proof (rawAngle_range (clientY - (top rect + height rect / 2))
                             (clientX - (left rect + width rect / 2))) as Hraw.
  pose proof (round_spec raw) as Hround. fold raw in Hraw.
  split.
  - assert (H : (IZR (-1) < IZR (round raw))%R) by lra. apply lt_IZR in H. lia.
  - assert (H : (IZR (round raw) < IZR 361)%R) by lra. apply lt_IZR in H. lia.
Qed.

(** X9. A disabled knob invokes no callback and keeps its drag flag,
    whatever the pointer does; a move outside a drag invokes none either.
    Every angle the knob reports through [onChange] lies in [0, 360]; and
    releasing the pointer ends the drag and reports, through [onRelease],
    the value the knob was rendered with, wherever the pointer is. *)
Theorem knob_reports_valid_angles
        (p : Props) (knob : option DOMRect) (clientX clientY : R) (dragging : bool) :
  (disabled p = true ->
   handlePointerDown p knob clientX clientY dragging = (dragging, None)
   /\ handlePointerMove p knob clientX clientY dragging = (dragging, None)
   /\ handlePointerUp p dragging = (dragging, None))
  /\ snd (handlePointerMove p knob clientX clientY false) = None
  /\ (forall c,
        snd (handlePointerDown p knob clientX clientY dragging) = Some c
        \/ snd (handlePointerMove p knob clientX clientY dragging) = Some c ->
        exists newAngle, c = onChange newAngle /\ 0 <= newAngle <= 360)
  /\ (disabled p = false ->
      handlePointerUp p dragging = (false, Some (onRelease (value p)))).
Proof.
  unfold handlePointerDown, handlePointerMove, handlePointerUp.
  pose proof (calculateAngle_range knob clientX clientY) as Hr.
  destruct (disabled p), dragging; cbn;
    (split; [intros H; try discriminate H; auto|]);
    (split; [reflexivity|]);
    (split; [|intros H; try discriminate H; reflexivity]);
    intros c [H | H]; try discriminate H; injection H as <-; eauto.
Qed.

End KnobCallbacks.

(** ** The service: reading a response *)

Section Responses.
Import GeminiService Predicates Samples.

Lemma scan_parts_spec (ps : list Part) :
  forall acc,
    match firstInline ps with
    | Some d => scan_parts ps acc = inl ("data:image/png;base64," ++ d)
    | None => exists t, scan_parts ps acc = inr t
    end.
Proof.
  induction ps as [|part ps IH]; intros acc; cbn [firstInline scan_parts].
  - now exists acc.
  - destruct (inlineData part) as [d|]; [reflexivity|].
    destruct (truthy (text part)); apply IH.
Qed.

Lemma safety_case {A : Type} (o : option string) (x y : A) :
  match o with
  | Some "SAFETY" => x
  | _ => y
  end
  = if match o with Some t => String.eqb t "SAFETY" | None => false end then x else y.
Proof.
  destruct o as [t|]; [|reflexivity].
  destruct (String.eqb_spec t "SAFETY") as [-> | Hne]; [reflexivity|].
  repeat (destruct t as [|[[] [] [] [] [] [] [] []] t]; try reflexivity; try congruence).
Qed.

Lemma readSceneResponse_cases (response : GenerateContentResponse) :
  match truthy (blockReason response), stoppedForSafety response, firstImage response with
  | None, false, Some d =>
      readSceneResponse response = Ok ("data:image/png;base64," ++ d)
  | _, _, _ => exists m, readSceneResponse response = Throw m /\ m <> ""
  end.
Proof.
  unfold readSceneResponse, stoppedForSafety, firstImage.
  destruct (truthy (blockReason response)) as [reason|].
  { eexists. split; [reflexivity | cbn; discriminate]. }
  destruct (candidates response) as [[|c rest]|];
    try (eexists; split; [reflexivity | discriminate]).
  rewrite safety_case.
  destruct (match truthy (finishReason c) with
            | Some t => String.eqb t "SAFETY" | None => false end).
  { eexists. split; [reflexivity | discriminate]. }
  unfold scan_candidate. destruct (parts c) as [ps|].
  - pose proof (scan_parts_spec ps "") as H.
    destruct (firstInline ps) as [d|].
    + now rewrite H.
    + destruct H as [t ->].
      destruct t; eexists; (split; [reflexivity | cbn; discriminate]).
  - eexists. split; [reflexivity | discriminate].
Qed.

Lemma readEnhanceResponse_cases (response : GenerateContentResponse) :
  match truthy (blockReason response), firstImage response with
  | None, Some d =>
      readEnhanceResponse response = Ok ("data:image/png;base64," ++ d)
  | _, _ => exists m, readEnhanceResponse response = Throw m /\ m <> ""
  end.
Proof.
  unfold readEnhanceResponse, firstImage.
  destruct (truthy (blockReason response)) as [reason|].
  { eexists. split; [reflexivity | cbn; discriminate]. }
  destruct (candidates response) as [[|c rest]|];
    try (eexists; split; [reflexivity | discriminate]).
  unfold scan_candidate. destruct (parts c) as [ps|].
  - pose proof (scan_parts_spec ps "") as H.
    destruct (firstInline ps) as [d|].
    + now rewrite H.
    + destruct H as [t ->].
      destruct t; eexists; (split; [reflexivity | cbn; discriminate]).
  - eexists. split; [reflexivity | discriminate].
Qed.

(** X10. A response yields an image exactly when the prompt was not
    blocked and some part of its first candidate carries inline data; the
    image is then the first such payload behind the PNG data-URL prefix,
    whatever text parts come before or after it, and later candidates are
    never looked at.  A generation is moreover refused when the first
    candidate stopped for safety, which an enhancement does not check. *)
Theorem response_yields_first_inline_image
        (response : GenerateContentResponse) (url : string) :
  (readSceneResponse response = Ok url
   <-> truthy (blockReason response) = None
       /\ stoppedForSafety response = false
       /\ exists d, firstImage response = Some d /\ url = "data:image/png;base64," ++ d)
  /\ (readEnhanceResponse response = Ok url
      <-> truthy (blockReason response) = None
          /\ exists d, firstImage response = Some d
                       /\ url = "data:image/png;base64," ++ d).
Proof.
  pose proof (readSceneResponse_cases response) as Hs.
  pose proof (readEnhanceResponse_cases response) as He.
  destruct (truthy (blockReason response)) as [reason|] eqn:Eb;
    destruct (stoppedForSafety response) eqn:Es;
    destruct (firstImage response) as [d|] eqn:Ei;
    cbv beta iota in Hs, He;
    (split; split;
     [ intros Hok;
       try (match type of Hs with ex _ => destruct Hs as [m [Hm _]] end; congruence);
       try (match type of He with ex _ => destruct He as [m [Hm _]] end; congruence);
       first [ rewrite Hs in Hok | rewrite He in Hok ];
       injection Hok as <-; repeat split; exists d; split; reflexivity
     | intros Hyp;
       first [ destruct Hyp as [H1 [H2 [d' [H3 H4]]]]
             | destruct Hyp as [H1 [d' [H3 H4]]] ];
       try discriminate;
       injection H3 as <-; subst url; assumption
     | intros Hok;
       try (match type of He with ex _ => destruct He as [m [Hm _]] end; congruence);
       rewrite He in Hok;
       injection Hok as <-; repeat split; exists d; split; reflexivity
     | intros Hyp; destruct Hyp as [H1 [d' [H3 H4]]];
       try discriminate;
       injection H3 as <-; subst url; assumption ]).
Qed.

End Responses.

(** ** The service: calls and payloads *)

Section Calls.
Import GeminiService Predicates Samples.

Lemma rethrow_message {A : Type} (fallback : string) (r : Result A) (m : string) :
  fallback <> "" -> rethrow fallback r = Throw m -> m <> "".
Proof.
  intros Hf. destruct r as [v | m']; cbn; [discriminate|].
  intros [= <-]. now apply or_default_nonempty.
Qed.

(** X11. One invocation of [generateSceneFromAngle] or of [enhanceImage]
    sends exactly one request, built from the image it was given, whether
    it succeeds or fails (there is no retry), and draws no token; when it
    fails, the message it fails with is never empty: a rejected request
    passes its own message on, or a fixed one if it has none. *)
Theorem service_call_sends_one_request
        (img : SceneImage) (a : Z) (enhancementType context : string) (w : World) :
  let g := generateSceneFromAngle img a context w in
  let h := enhanceImage img enhancementType context w in
  trace (snd g) = (trace w ++ [GenerateContent (sceneRequest img a context)])%list
  /\ trace (snd h)
     = (trace w ++ [GenerateContent (enhanceRequest img enhancementType context)])%list
  /\ uuids (snd g) = uuids w /\ uuids (snd h) = uuids w
  /\ (forall m, fst g = Throw m -> m <> "")
  /\ (forall m, fst h = Throw m -> m <> "")
  /\ (forall m,
        remote w (ncalls (trace w)) = Rejected m ->
        fst g = Throw (JS.or_default m "Error de conexión o generación.")
        /\ fst h = Throw (JS.or_default m "Error al mejorar la imagen.")).
Proof.
  cbv zeta. unfold generateSceneFromAngle, enhanceImage, generateContent. cbn [fst snd].
  repeat split; try reflexivity.
  - intros m. apply rethrow_message. discriminate.
  - intros m. apply rethrow_message. discriminate.
  - rewrite H. reflexivity.
  - rewrite H. reflexivity.
Qed.

Lemma substring_all (s : string) : String.substring 0 (String.length s) s = s.
Proof. induction s as [|c s IH]; cbn; [reflexivity | now rewrite IH]. Qed.

Lemma substring_drop (p d : string) :
  String.substring (String.length p) (String.length (p ++ d) - String.length p) (p ++ d)
  = d.
Proof.
  induction p as [|c p IH]; cbn [String.length append String.substring Nat.sub].
  - rewrite Nat.sub_0_r. apply substring_all.
  - exact IH.
Qed.

Lemma prefix_append (m d : string) : String.prefix m (m ++ d) = true.
Proof.
  induction m as [|c m IH]; cbn.
  - destruct d; reflexivity.
  - destruct (Ascii.ascii_dec c c); [exact IH | contradiction].
Qed.

Lemma index_skip (m s : string) (c : ascii) :
  String.prefix m (String c s) = false ->
  String.index 0 m (String c s) = option_map S (String.index 0 m s).
Proof.
  intros H. cbn [String.index]. rewrite H.
  destruct (String.index 0 m s); reflexivity.
Qed.

Lemma index_here (m s : string) (c : ascii) :
  String.prefix m (String c s) = true -> String.index 0 m (String c s) = Some 0%nat.
Proof. intros H. cbn [String.index]. now rewrite H. Qed.

Lemma base64Data_png (d : string) :
  String.index 0 marker d = None ->
  base64Data ("data:image/png;base64," ++ d) = d.
Proof.
  intros Hd. unfold base64Data.
  assert (Hi : String.index 0 marker ("data:image/png;base64," ++ d) = Some 15%nat).
  { change ("data:image/png;base64," ++ d)
      with ("data:image/png;" ++ String "b" ("ase64," ++ d)).
    cbn [append].
    repeat (rewrite index_skip by reflexivity).
    rewrite index_here; [reflexivity|].
    apply (prefix_append marker d). }
  rewrite Hi.
  change (15 + String.length marker)%nat with (String.length "data:image/png;base64,").
  rewrite substring_drop, Hd. reflexivity.
Qed.

(** X12. Edits stack on the payload that was received: when a response
    yields an image whose payload does not itself contain the marker
    [base64,] (no base64 text does), the next request made with that image as
    its base, enhancement or generation, carries exactly that payload as its
    inline data and [image/png] as its media type. *)
Theorem next_request_carries_received_payload
        (response : GenerateContentResponse) (url : string) (uuid : nat) (a b : Z)
        (flag : bool) (enhancementType context : string) :
  readSceneResponse response = Ok url \/ readEnhanceResponse response = Ok url ->
  (forall d, firstImage response = Some d -> String.index 0 "base64," d = None) ->
  let img := mkSceneImage uuid url "image/png" a flag in
  Some (inline_data (enhanceRequest img enhancementType context)) = firstImage response
  /\ Some (inline_data (sceneRequest img b context)) = firstImage response
  /\ inline_mimeType (enhanceRequest img enhancementType context) = "image/png".
Proof.
  intros Hok Hclean img.
  assert (Hurl : exists d, firstImage response = Some d
                           /\ url = "data:image/png;base64," ++ d).
  { pose proof (readSceneResponse_cases response) as Hs.
    pose proof (readEnhanceResponse_cases response) as He.
    destruct (truthy (blockReason response)) as [reason|];
      destruct (stoppedForSafety response);
      destruct (firstImage response) as [d|];
      cbv beta iota in Hs, He;
      destruct Hok as [Hok | Hok];
      try (match type of Hs with ex _ => destruct Hs as [m [Hm _]] end; congruence);
      try (match type of He with ex _ => destruct He as [m [Hm _]] end; congruence);
      exists d; split; congruence. }
  destruct Hurl as [d [Hd ->]].
  subst img. unfold enhanceRequest, sceneRequest. cbn [inline_data inline_mimeType data mimeType].
  rewrite base64Data_png by (apply Hclean; exact Hd).
  rewrite Hd. auto.
Qed.

End Calls.

(** ** The orchestrator: when resolving goes to the remote *)

Section ResolveRemote.
Import GeminiService App Predicates Samples.

Lemma near_far (a : Z) (img : SceneImage) :
  near a img = false <-> 10 <= Z.abs (angle img - a).
Proof. unfold near. rewrite Z.ltb_ge. tauto. Qed.

Lemma find_near_none (a : Z) (l : list SceneImage) :
  JS.find (near a) l = None <-> forall img, In img l -> 10 <= Z.abs (angle img - a).
Proof.
  split.
  - intros H img Hin. apply near_far. exact (find_none _ _ H img Hin).
  - intros H. destruct (JS.find (near a) l) as [hit|] eqn:E; [|reflexivity].
    destruct (near_found a l hit E) as [Hin Hnear]. specialize (H hit Hin). lia.
Qed.

Lemma snap_iff (a : Z) : (a >? 350) || (a <? 10) = false <-> 10 <= a <= 350.
Proof. rewrite orb_false_iff, Z.gtb_ltb, !Z.ltb_ge. lia. Qed.

(** X13. Resolving an angle reaches the remote model exactly when a
    source is uploaded, no cached image lies less than 10 degrees from the
    angle, and the angle is between 10 and 350 inclusive.  It then sends one
    request, for that angle, with the original image (never the displayed
    one) as its base.  In every other case it touches neither the world nor
    the store. *)
Theorem resolve_reaches_remote_only_off_cache (a : Z) (s : State) (w : World) :
  let fresh := (forall img, In img (sequenceImages s) -> 10 <= Z.abs (angle img - a))
               /\ 10 <= a <= 350 in
  (forall original,
      originalImage s = Some original -> fresh ->
      trace (snd (handleAngleRelease a s w))
      = (trace w ++ [GenerateContent (sceneRequest original a (contextPrompt s))])%list)
  /\ (originalImage s = None \/ ~ fresh ->
      snd (handleAngleRelease a s w) = w
      /\ sequenceImages (fst (handleAngleRelease a s w)) = sequenceImages s).
Proof.
  intros fresh. subst fresh. unfold handleAngleRelease. split.
  - intros original Ho [Hfar Ha]. rewrite Ho.
    apply find_near_none in Hfar. rewrite Hfar.
    apply snap_iff in Ha. rewrite Ha.
    rewrite generateSceneFromAngle_eq.
    destruct (sceneResult (remote w) (ncalls (trace w))); reflexivity.
  - intros Hno. destruct (originalImage s) as [o|]; [|split; reflexivity].
    destruct Hno as [Hno | Hno]; [discriminate|].
    destruct (JS.find (near a) (sequenceImages s)) as [hit|] eqn:Hfind;
      [split; reflexivity|].
    destruct ((a >? 350) || (a <? 10)) eqn:Hsnap; [split; reflexivity|].
    exfalso. apply Hno. split; [now apply find_near_none | now apply snap_iff].
Qed.

Lemma insert_head (x : SceneImage) (l : list SceneImage) :
  HdRel angle_le x l -> JS.insert angle x l = x :: l.
Proof.
  intros [|y l' Hxy]; cbn; [reflexivity|].
  unfold angle_le in Hxy. destruct (Z.leb_spec (angle x) (angle y)); [reflexivity | lia].
Qed.

Lemma insert_swap (x g : SceneImage) (l : list SceneImage) :
  HdRel angle_le x l -> angle x <> angle g ->
  JS.insert angle x (JS.insert angle g l) = JS.insert angle g (x :: l).
Proof.
  intros Hhd Hne. cbn [JS.insert].
  destruct (Z.leb_spec (angle g) (angle x)) as [Hle | Hgt].
  - assert (Hg : HdRel angle_le g l).
    { destruct Hhd as [|y l' Hxy]; constructor. unfold angle_le in *. lia. }
    rewrite (insert_head g l Hg). cbn [JS.insert].
    destruct (Z.leb_spec (angle x) (angle g)); [lia|].
    now rewrite (insert_head x l Hhd).
  - apply insert_head. apply insert_HdRel; [unfold angle_le; lia | exact Hhd].
Qed.

(** Appending an image whose angle is new to a sorted store and sorting
    puts it at its place and moves nothing else. *)
Lemma sort_append_fresh (g : SceneImage) (l : list SceneImage) :
  sortedByAngle l -> (forall x, In x l -> angle x <> angle g) ->
  sortByAngle (l ++ [g]) = JS.insert angle g l.
Proof.
  unfold sortedByAngle, sortByAngle. induction 1 as [|x l Hl IH Hhd]; intros Hne.
  - reflexivity.
  - cbn [app JS.sort]. rewrite IH by (intros y Hy; apply Hne; now right).
    apply insert_swap; [exact Hhd | apply Hne; now left].
Qed.

Lemma find_insert_near (a : Z) (g : SceneImage) (l : list SceneImage) :
  near a g = true -> (forall x, In x l -> near a x = false) ->
  JS.find (near a) (JS.insert angle g l) = Some g.
Proof.
  intros Hg. induction l as [|y l IH]; intros Hfar; cbn.
  - now rewrite Hg.
  - destruct (angle g <=? angle y); cbn.
    + now rewrite Hg.
    + rewrite (Hfar y (or_introl eq_refl)). apply IH.
      intros x Hx. apply Hfar. now right.
Qed.

(** X14. What a successful single-angle generation stores, a later
    request finds.  In a state a session can reach, when the angle goes to
    the remote and the remote answers with an image, the new variant is
    displayed and inserted into the store at its place by angle, every
    earlier entry staying in order, with the application ready and no error
    shown; resolving the same angle again then shows that very variant from
    the cache without touching the world. *)
Theorem generated_variant_is_cached
        (actions : list Action) (w0 : World) (original : SceneImage) (a : Z) (d : string) :
  let s := fst (run actions initial w0) in
  let w := snd (run actions initial w0) in
  originalImage s = Some original ->
  (forall img, In img (sequenceImages s) -> 10 <= Z.abs (angle img - a)) ->
  10 <= a <= 350 ->
  sceneResult (remote w) (ncalls (trace w)) = Ok d ->
  let variant := mkSceneImage (uuids w) d "image/png" a false in
  let s1 := fst (handleAngleRelease a s w) in
  let w1 := snd (handleAngleRelease a s w) in
  currentImage s1 = Some variant
  /\ sequenceImages s1 = JS.insert angle variant (sequenceImages s)
  /\ (forall img, In img (sequenceImages s1) <-> img = variant \/ In img (sequenceImages s))
  /\ appState s1 = READY /\ error s1 = None
  /\ handleAngleRelease a s1 w1 = (setCurrentImage (Some variant) s1, w1).
Proof.
  intros s w Ho Hfar Ha Hok variant s1 w1.
  pose proof (reachable_Inv actions w0) as HI. fold s in HI.
  assert (Hrun : handleAngleRelease a s w
                 = (setAppState READY
                      (setSequenceImages
                         (JS.insert angle variant (sequenceImages s))
                         (setCurrentImage (Some variant)
                            (setError None (setAppState GENERATING s)))),
                    mkWorld (remote w)
                            (trace w ++ [GenerateContent
                                           (sceneRequest original a (contextPrompt s))])
                            (S (uuids w)))).
  { unfold handleAngleRelease. rewrite Ho.
    rewrite (proj2 (find_near_none a _) Hfar), (proj2 (snap_iff a) Ha).
    rewrite generateSceneFromAngle_eq, Hok.
    cbn [randomUUID log remote trace uuids sequenceImages setError setAppState].
    fold variant. rewrite sort_append_fresh; [reflexivity | apply (inv_sorted s HI) |].
    intros x Hx. specialize (Hfar x Hx). cbn. lia. }
  subst s1 w1. rewrite Hrun. cbn [fst snd].
  split; [reflexivity|]. split; [reflexivity|]. split.
  { intros img. cbn [sequenceImages setAppState setSequenceImages]. apply insert_In. }
  split; [reflexivity|]. split; [reflexivity|].
  unfold handleAngleRelease.
  cbn [originalImage sequenceImages setAppState setSequenceImages setCurrentImage setError].
  rewrite Ho.
  rewrite find_insert_near; [reflexivity | |].
  - apply near_spec. cbn. rewrite Z.sub_diag. cbn. lia.
  - intros x Hx. apply near_far. now apply Hfar.
Qed.

(** X15. When the remote fails a single-angle generation, the store, the
    displayed image and the source are left untouched, the application is in
    the error state showing the (non-empty) message of the failure, and
    exactly one request was sent. *)
Theorem failed_generation_changes_nothing
        (a : Z) (s : State) (w : World) (original : SceneImage) (message : string) :
  originalImage s = Some original ->
  (forall img, In img (sequenceImages s) -> 10 <= Z.abs (angle img - a)) ->
  10 <= a <= 350 ->
  sceneResult (remote w) (ncalls (trace w)) = Throw message ->
  let s' := fst (handleAngleRelease a s w) in
  let w' := snd (handleAngleRelease a s w) in
  sequenceImages s' = sequenceImages s
  /\ currentImage s' = currentImage s
  /\ originalImage s' = originalImage s
  /\ appState s' = ERROR
  /\ error s' = Some message /\ message <> ""
  /\ ncalls (trace w') = S (ncalls (trace w))
  /\ uuids w' = uuids w.
Proof.
  intros Ho Hfar Ha Hfail s' w'. subst s' w'.
  pose proof (sceneResult_message _ _ _ Hfail) as Hm.
  unfold handleAngleRelease. rewrite Ho.
  rewrite (proj2 (find_near_none a _) Hfar), (proj2 (snap_iff a) Ha).
  rewrite generateSceneFromAngle_eq, Hfail. cbn [fst snd].
  repeat split; try reflexivity; try assumption.
  - cbn. destruct message; [contradiction | reflexivity].
  - unfold log. cbn [trace]. rewrite ncalls_app. cbn. lia.
Qed.

End ResolveRemote.

(** ** The orchestrator: every way a sweep can end *)

Section SweepOutcomes.
Import GeminiService App Predicates Samples.

Lemma answers_succeed (r : nat -> RemoteOutcome) (count : nat) :
  forall n, succeed r n (answers r n count).
Proof.
  induction count as [|c IH]; intros n; cbn; [exact I|].
  destruct (sceneResult r n) eqn:E; cbn; [split; [exact E | apply IH] | exact I].
Qed.

Lemma answers_length (r : nat -> RemoteOutcome) (count : nat) :
  forall n, (List.length (answers r n count) <= count)%nat.
Proof.
  induction count as [|c IH]; intros n; cbn; [lia|].
  destruct (sceneResult r n); cbn; [specialize (IH (S n)) |]; lia.
Qed.

Lemma answers_stop (r : nat -> RemoteOutcome) (count : nat) :
  forall n,
    (List.length (answers r n count) < count)%nat ->
    exists m, sceneResult r (n + List.length (answers r n count)) = Throw m.
Proof.
  induction count as [|c IH]; intros n Hlt; cbn in *; [lia|].
  destruct (sceneResult r n) as [d | m] eqn:E; cbn in *.
  - destruct (IH (S n) ltac:(lia)) as [m Hm]. exists m.
    now replace (n + S (List.length (answers r (S n) c)))%nat
      with (S n + List.length (answers r (S n) c))%nat by lia.
  - exists m. now rewrite Nat.add_0_r.
Qed.

(** The state and world after a sweep whose calls all succeed. *)
Lemma sweep_success_run (s : State) (w : World) (original : SceneImage) (ds : list string) :
  originalImage s = Some original ->
  List.length ds = 7%nat ->
  succeed (remote w) (ncalls (trace w)) ds ->
  handleGenerateSequence s w
  = (setCurrentImage (Some original)
       (setAppState READY
          (setSequenceImages
             (sortByAngle ([original] ++ variants (uuids w) sweepAngles ds))
             (setError None (setAppState GENERATING_SEQUENCE s)))),
     mkWorld (remote w) (trace w ++ sweepEvents original (contextPrompt s) sweepAngles)
             (uuids w + 7)).
Proof.
  intros Ho Hlen Hok. unfold handleGenerateSequence. rewrite Ho.
  change angles with (0 :: sweepAngles). cbn [sweep Z.eqb].
  rewrite <- (app_nil_r sweepAngles) at 1.
  rewrite (sweep_succeed original (contextPrompt s) sweepAngles [] ds);
    [reflexivity | exact sweepAngles_nonzero | exact Hlen | exact Hok].
Qed.

(** The state and world after a sweep whose call number [length ds] fails. *)
Lemma sweep_failure_run (s : State) (w : World) (original : SceneImage)
      (ds : list string) (message : string) :
  originalImage s = Some original ->
  (List.length ds < 7)%nat ->
  succeed (remote w) (ncalls (trace w)) ds ->
  sceneResult (remote w) (ncalls (trace w) + List.length ds) = Throw message ->
  handleGenerateSequence s w
  = (setAppState ERROR
       (setError (Some ("La generación de secuencia se detuvo: " ++ message))
          (match ds with
           | [] => setError None (setAppState GENERATING_SEQUENCE s)
           | _ => setSequenceImages
                    (sortByAngle ([original] ++ variants (uuids w) sweepAngles ds))
                    (setError None (setAppState GENERATING_SEQUENCE s))
           end)),
     mkWorld (remote w)
             (trace w ++ sweepEvents original (contextPrompt s)
                                     (firstn (S (List.length ds)) sweepAngles))
             (uuids w + List.length ds)).
Proof.
  intros Ho Hlen Hok Hfail.
  set (n := List.length ds) in *.
  assert (Hn : (n < List.length sweepAngles)%nat) by exact Hlen.
  destruct (split_nth sweepAngles n Hn) as [Hsplit Hfirst].
  set (pre := firstn n sweepAngles) in *.
  set (a := nth n sweepAngles 0) in *.
  set (post := skipn (S n) sweepAngles) in *.
  assert (Hpre : Forall (fun x => x <> 0) pre /\ a <> 0).
  { pose proof sweepAngles_nonzero as Hnz. rewrite Hsplit in Hnz.
    apply Forall_app in Hnz. destruct Hnz as [H1 H2].
    split; [exact H1 | now inversion H2]. }
  destruct Hpre as [Hpre Ha].
  assert (Hlenpre : List.length ds = List.length pre).
  { unfold pre. rewrite length_firstn. fold n. lia. }
  unfold handleGenerateSequence. rewrite Ho.
  change angles with (0 :: sweepAngles). cbn [sweep Z.eqb]. rewrite Hsplit at 1.
  rewrite (sweep_succeed original (contextPrompt s) pre (a :: post) ds);
    [| exact Hpre | exact Hlenpre | exact Hok].
  cbn [sweep]. apply Z.eqb_neq in Ha. rewrite Ha.
  rewrite generateSceneFromAngle_eq.
  match goal with
  | |- context [sceneResult ?r ?i] =>
      replace (sceneResult r i) with (@Throw string message)
  end.
  - rewrite Hfirst. unfold sweepEvents. rewrite flat_map_app. cbn [flat_map].
    unfold sleep, log. cbn [remote trace uuids]. rewrite <- !app_assoc.
    rewrite <- Hlenpre. fold n.
    replace (variants (uuids w) pre ds) with (variants (uuids w) sweepAngles ds)
      by (unfold pre, n; now rewrite variants_firstn).
    destruct ds as [|d ds']; destruct pre as [|b pre']; try discriminate; reflexivity.
  - rewrite <- Hfail. unfold sleep, log. cbn [trace remote]. f_equal.
    rewrite !ncalls_app, ncalls_sweepEvents. cbn. lia.
Qed.

(** X16. Whatever the remote does, a sweep sends between one and seven
    requests, for the sweep angles 45, 90, ... in ascending order and never
    for 0, each one for the original image and each one straight after a
    500 ms pause; it stops at the first failure and draws one token per
    image received.  Without an uploaded source it does nothing at all. *)
Theorem sweep_calls_are_sequential (s : State) (w : World) :
  (originalImage s = None -> handleGenerateSequence s w = (s, w))
  /\ (forall original,
        originalImage s = Some original ->
        let w' := snd (handleGenerateSequence s w) in
        let received := answers (remote w) (ncalls (trace w)) 7 in
        let k := Nat.min 7 (S (List.length received)) in
        (1 <= k <= 7)%nat
        /\ trace w'
           = (trace w ++ sweepEvents original (contextPrompt s) (firstn k sweepAngles))%list
        /\ ncalls (trace w') = (ncalls (trace w) + k)%nat
        /\ uuids w' = (uuids w + List.length received)%nat
        /\ (appState (fst (handleGenerateSequence s w)) = READY
            <-> List.length received = 7%nat)).
Proof.
  split.
  { intros Ho. unfold handleGenerateSequence. now rewrite Ho. }
  intros original Ho w' received k. subst w'.
  pose proof (answers_succeed (remote w) 7 (ncalls (trace w))) as Hok.
  pose proof (answers_length (remote w) 7 (ncalls (trace w))) as Hlen.
  fold received in Hok, Hlen.
  destruct (Nat.eq_dec (List.length received) 7) as [H7 | H7].
  - rewrite (sweep_success_run s w original received Ho H7 Hok). cbn [fst snd trace uuids].
    subst k. rewrite H7. cbn [Nat.min firstn].
    change (firstn 7 sweepAngles) with sweepAngles.
    repeat split; try lia; try reflexivity.
    rewrite ncalls_app, ncalls_sweepEvents. reflexivity.
  - assert (Hlt : (List.length received < 7)%nat) by lia.
    destruct (answers_stop (remote w) 7 (ncalls (trace w)) Hlt) as [m Hm].
    fold received in Hm.
    rewrite (sweep_failure_run s w original received m Ho Hlt Hok Hm).
    cbn [fst snd trace uuids].
    subst k. replace (Nat.min 7 (S (List.length received))) with (S (List.length received))
      by lia.
    repeat split; try lia; try reflexivity.
    + rewrite ncalls_app, ncalls_sweepEvents, length_firstn.
      change (List.length sweepAngles) with 7%nat. lia.
    + intros H. discriminate H.
Qed.

(** X17. In a state a session can reach, a sweep whose seven calls all
    succeed replaces the store, whatever it held, by the original followed
    by the seven variants at 45, 90, ..., 315 degrees, in that order,
    displays the original, and leaves the application ready with no error;
    variants generated one by one before the sweep are dropped. *)
Theorem complete_sweep_replaces_store
        (actions : list Action) (w0 : World) (original : SceneImage) (ds : list string) :
  let s := fst (run actions initial w0) in
  let w := snd (run actions initial w0) in
  originalImage s = Some original ->
  List.length ds = 7%nat ->
  succeed (remote w) (ncalls (trace w)) ds ->
  let s' := fst (handleGenerateSequence s w) in
  sequenceImages s' = original :: variants (uuids w) sweepAngles ds
  /\ List.map angle (sequenceImages s') = angles
  /\ List.map data (sequenceImages s') = data original :: ds
  /\ currentImage s' = Some original
  /\ appState s' = READY /\ error s' = None.
Proof.
  intros s w Ho Hlen Hok s'. subst s'.
  pose proof (reachable_Inv actions w0) as HI. fold s in HI.
  destruct (inv_original s HI original Ho) as [_ Hangle].
  rewrite (sweep_success_run s w original ds Ho Hlen Hok). cbn [fst].
  cbn [sequenceImages currentImage appState error
       setCurrentImage setAppState setSequenceImages setError].
  assert (Hsort : sortByAngle ([original] ++ variants (uuids w) sweepAngles ds)
                  = original :: variants (uuids w) sweepAngles ds).
  { apply sort_sorted_id. apply variants_sorted. rewrite Hangle.
    repeat constructor; lia. }
  rewrite Hsort.
  split; [reflexivity|].
  do 8 (destruct ds as [|? ds]; try discriminate Hlen).
  cbn. rewrite Hangle. auto.
Qed.

End SweepOutcomes.

(** ** The orchestrator: spacing of the cache, busy flag, error banner *)

Section Housekeeping.
Import GeminiService App Predicates Samples.

Lemma spacedFrom_weaken (l : list SceneImage) (lo lo' : Z) :
  lo' <= lo -> spacedFrom lo l -> spacedFrom lo' l.
Proof. destruct l as [|x l]; cbn; [auto|]. intros Hle [Hx Hl]. split; [lia | exact Hl]. Qed.

Lemma insert_spaced (g : SceneImage) (l : list SceneImage) :
  forall lo,
    spacedFrom lo l -> lo <= angle g <= 350 ->
    (forall x, In x l -> 10 <= Z.abs (angle x - angle g)) ->
    spacedFrom lo (JS.insert angle g l).
Proof.
  induction l as [|y l IH]; intros lo Hl Hg Hfar; cbn [JS.insert].
  - cbn. auto.
  - destruct Hl as [Hy Hl]. pose proof (Hfar y (or_introl eq_refl)) as Hgy.
    destruct (Z.leb_spec (angle g) (angle y)).
    + cbn. repeat split; try lia. exact Hl.
    + cbn [spacedFrom]. split; [exact Hy|].
      apply IH; [exact Hl | lia | intros x Hx; apply Hfar; now right].
Qed.

Lemma map_spaced (f : SceneImage -> SceneImage) (l : list SceneImage) :
  (forall img, angle (f img) = angle img) ->
  forall lo, spacedFrom lo l -> spacedFrom lo (List.map f l).
Proof.
  intros Hf. induction l as [|x l IH]; intros lo; cbn; [auto|].
  rewrite Hf. intros [Hx Hl]. split; [exact Hx | now apply IH].
Qed.

Lemma variants_spaced (todo : list Z) :
  forall lo u ds, anglesFrom lo todo -> spacedFrom lo (variants u todo ds).
Proof.
  induction todo as [|a todo IH]; intros lo u ds Hs; cbn; [exact I|].
  destruct ds as [|d ds]; [exact I|]. destruct Hs as [Ha Hs].
  cbn. split; [exact Ha | now apply IH].
Qed.



Lemma Settled_initial : Settled initial.
Proof. constructor; cbn; [exact I | reflexivity | discriminate]. Qed.

(** These three properties only read the store, the phase and the banner. *)
Lemma Settled_frame (s s' : State) :
  sequenceImages s' = sequenceImages s -> appState s' = appState s ->
  error s' = error s -> Settled s -> Settled s'.
Proof.
  intros Hs Ha He [H1 H2 H3]. constructor.
  - now rewrite Hs.
  - unfold isBusy in *. now rewrite Ha.
  - rewrite Ha, He. exact H3.
Qed.

Lemma Settled_ready (s s' : State) :
  spacedFrom 0 (sequenceImages s') -> appState s' = READY -> Settled s'.
Proof.
  intros Hs Ha. constructor; [exact Hs | unfold isBusy; now rewrite Ha |].
  rewrite Ha. discriminate.
Qed.

Lemma Settled_error (s' : State) (m : string) :
  spacedFrom 0 (sequenceImages s') -> appState s' = ERROR ->
  error s' = Some m -> m <> "" -> Settled s'.
Proof.
  intros Hs Ha He Hm. constructor; [exact Hs | unfold isBusy; now rewrite Ha |].
  intros _. now exists m.
Qed.

Lemma enhanceImage_eq (current : SceneImage) (enhancementType context : string) (w : World) :
  enhanceImage current enhancementType context w
  = (enhanceResult (remote w) (ncalls (trace w)),
     log (GenerateContent (enhanceRequest current enhancementType context)) w).
Proof. reflexivity. Qed.

Lemma enhanceResult_message (r : nat -> RemoteOutcome) (i : nat) (message : string) :
  enhanceResult r i = Throw message -> message <> "".
Proof. unfold enhanceResult. apply rethrow_message. discriminate. Qed.

Lemma Settled_enhanceWith (enhancementType : string) (current : SceneImage)
      (s s1 : State) (w : World) :
  Settled s -> sequenceImages s1 = sequenceImages s ->
  Settled (fst (enhanceWith enhancementType current s s1 w)).
Proof.
  intros HS Hs1. pose proof (enhanceWith_store enhancementType current s s1 w Hs1) as Hst.
  unfold enhanceWith in *. rewrite enhanceImage_eq in *.
  destruct (enhanceResult (remote w) (ncalls (trace w))) as [d | m] eqn:E.
  - cbn [fst snd randomUUID] in *. apply (Settled_ready s).
    + rewrite Hst. apply map_spaced; [|apply (settled_spaced s HS)].
      intros img. destruct (sameAngle current img) eqn:Es; [|reflexivity].
      apply sameAngle_eq in Es. cbn. congruence.
    + reflexivity.
  - cbn [fst] in *. apply (Settled_error _ m); cbn.
    + rewrite Hs1. apply (settled_spaced s HS).
    + reflexivity.
    + reflexivity.
    + eapply enhanceResult_message; eassumption.
Qed.

Lemma anglesFrom_sweep : anglesFrom 10 sweepAngles.
Proof. cbn. lia. Qed.

Lemma sweep_store_spaced (original : SceneImage) (u : nat) (ds : list string) :
  angle original = 0 ->
  spacedFrom 0 (sortByAngle ([original] ++ variants u sweepAngles ds)).
Proof.
  intros Hangle.
  rewrite sort_sorted_id.
  - cbn [app spacedFrom]. rewrite Hangle. split; [lia|].
    apply variants_spaced. exact anglesFrom_sweep.
  - apply variants_sorted. rewrite Hangle. repeat constructor; lia.
Qed.

Lemma Settled_step (a : Action) (s : State) (w : World) :
  Inv s -> Settled s -> Settled (fst (step a s w)).
Proof.
  intros HI HS.
  destruct a as [file | f base64 | | text | ty label | | | ang | ang | idx]; cbn [step fst].
  - (* FileChange *)
    unfold handleFileChange. destruct file as [f|]; [|exact HS].
    destruct (size f >? 5 * 1024 * 1024).
    + destruct HS as [H1 H2 H3]. constructor; cbn; [exact H1 | exact H2 |].
      intros _. eexists. split; [reflexivity | discriminate].
    + constructor; cbn; [exact I | reflexivity | discriminate].
  - (* LoadEnd *)
    unfold onloadend. destruct (randomUUID w) as [uuid w1]. cbn [fst].
    apply (Settled_ready s); cbn; [lia | reflexivity].
  - (* AutoContext *)
    unfold handleAutoContext. destruct (originalImage s) as [o|]; [|exact HS].
    destruct (analyzeImage o w) as [[d | m] w1]; cbn [fst];
      (apply (Settled_ready s); [apply (settled_spaced s HS) | reflexivity]).
  - (* EditContext *)
    now apply (Settled_frame s).
  - (* Enhancement *)
    unfold handleEnhancement. destruct (currentImage s) as [cur|]; [|exact HS].
    now apply Settled_enhanceWith.
  - (* RemoveBackground *)
    unfold handleRemoveBackground. destruct (currentImage s) as [cur|]; [|exact HS].
    now apply Settled_enhanceWith.
  - (* GenerateSequence *)
    destruct (originalImage s) as [o|] eqn:Ho.
    2:{ unfold handleGenerateSequence. rewrite Ho. exact HS. }
    destruct (inv_original s HI o Ho) as [_ Hangle].
    pose proof (answers_succeed (remote w) 7 (ncalls (trace w))) as Hok.
    pose proof (answers_length (remote w) 7 (ncalls (trace w))) as Hlen.
    pose proof (answers_stop (remote w) 7 (ncalls (trace w))) as Hstop.
    set (ds := answers (remote w) (ncalls (trace w)) 7) in *. clearbody ds.
    destruct (Nat.eq_dec (List.length ds) 7) as [H7 | H7].
    + rewrite (sweep_success_run s w o ds Ho H7 Hok). cbn [fst].
      apply (Settled_ready s); [|reflexivity].
      cbn [sequenceImages setCurrentImage setAppState setSequenceImages].
      now apply sweep_store_spaced.
    + assert (Hlt : (List.length ds < 7)%nat) by lia.
      destruct (Hstop Hlt) as [m Hm].
      rewrite (sweep_failure_run s w o ds m Ho Hlt Hok Hm). cbn [fst].
      eapply Settled_error; [| reflexivity | reflexivity | cbn; discriminate].
      cbn [sequenceImages setAppState setError].
      destruct ds; cbn [sequenceImages setAppState setError setSequenceImages];
        [apply (settled_spaced s HS) | now apply sweep_store_spaced].
  - (* ManualAngleChange *)
    now apply (Settled_frame s).
  - (* AngleRelease *)
    unfold handleAngleRelease.
    destruct (originalImage s) as [o|] eqn:Ho; [|exact HS].
    destruct (JS.find (near ang) (sequenceImages s)) as [existing|] eqn:Hfind;
      [now apply (Settled_frame s)|].
    destruct ((ang >? 350) || (ang <? 10)) eqn:Hsnap; [now apply (Settled_frame s)|].
    rewrite generateSceneFromAngle_eq.
    destruct (sceneResult (remote w) (ncalls (trace w))) as [d | m] eqn:E.
    + cbn [fst randomUUID log uuids]. apply (Settled_ready s); [|reflexivity].
      cbn [sequenceImages setAppState setSequenceImages setCurrentImage setError].
      pose proof (proj1 (find_near_none ang _) Hfind) as Hfar.
      rewrite sort_append_fresh.
      * apply insert_spaced; [apply (settled_spaced s HS) | | exact Hfar].
        apply snap_iff in Hsnap. cbn. lia.
      * apply (inv_sorted s HI).
      * intros x Hx. specialize (Hfar x Hx). cbn. lia.
    + cbn [fst]. eapply Settled_error; cbn;
        [apply (settled_spaced s HS) | reflexivity | reflexivity |].
      apply or_default_nonempty. discriminate.
  - (* AngleSelect *)
    destruct (JS.index (sequenceImages s) idx); [|exact HS].
    now apply (Settled_frame s).
Qed.

Lemma reachable_Settled (actions : list Action) :
  forall s w, Inv s -> Settled s -> Settled (fst (run actions s w)).
Proof.
  induction actions as [|a actions IH]; intros s w HI HS; cbn; [exact HS|].
  pose proof (Inv_step a s w HI) as HI'. pose proof (Settled_step a s w HI HS) as HS'.
  destruct (step a s w) as [s1 w1]. now apply IH.
Qed.



(** X19. No handler leaves the application busy: in every state a
    session can reach, between two actions, the flag that disables the
    controls is off. *)
Theorem never_left_busy (actions : list Action) (w0 : World) :
  isBusy (fst (run actions initial w0)) = false.
Proof.
  apply settled_idle, reachable_Settled; [exact Inv_initial | exact Settled_initial].
Qed.

(** X20. In every state a session can reach, the error phase always comes
    with a banner: whenever the application is in the ERROR state, an error
    message is set and it is not empty. *)
Theorem error_state_has_message (actions : list Action) (w0 : World) :
  let s := fst (run actions initial w0) in
  appState s = ERROR -> exists m, error s = Some m /\ m <> "".
Proof.
  intros s. apply settled_banner, reachable_Settled;
    [exact Inv_initial | exact Settled_initial].
Qed.

End Housekeeping.

(** ** The orchestrator: enhancement, upload and analysis at the edges *)

Section Edges.
Import GeminiService App Predicates Samples.


Lemma enhanceWith_failure (enhancementType : string) (current : SceneImage)
      (s s1 : State) (w : World) (m : string) :
  enhanceResult (remote w) (ncalls (trace w)) = Throw m ->
  enhanceWith enhancementType current s s1 w
  = (setAppState ERROR (setError (Some m) s1),
     log (GenerateContent (enhanceRequest current enhancementType (contextPrompt s))) w).
Proof.
  intros Hfail. unfold enhanceWith. rewrite enhanceImage_eq, Hfail. reflexivity.
Qed.


(** X22. When the remote fails an enhancement or a background removal,
    the store, the displayed image and the source are left untouched, the
    application is in the error state showing the (non-empty) message of the
    failure, and exactly one request, for the displayed image, was sent. *)
Theorem failed_enhancement_changes_nothing
        (enhancementType label : string) (s : State) (w : World)
        (current : SceneImage) (message : string) :
  currentImage s = Some current ->
  enhanceResult (remote w) (ncalls (trace w)) = Throw message ->
  forall r,
    r = handleEnhancement enhancementType label s w
    \/ (enhancementType = "BACKGROUND_REMOVAL" /\ r = handleRemoveBackground s w) ->
    sequenceImages (fst r) = sequenceImages s
    /\ currentImage (fst r) = Some current
    /\ originalImage (fst r) = originalImage s
    /\ appState (fst r) = ERROR
    /\ error (fst r) = Some message /\ message <> ""
    /\ trace (snd r)
       = (trace w ++ [GenerateContent
                        (enhanceRequest current enhancementType (contextPrompt s))])%list.
Proof.
  intros Hcur Hfail r Hr.
  pose proof (enhanceResult_message _ _ _ Hfail) as Hm.
  destruct Hr as [-> | [-> ->]];
    unfold handleEnhancement, handleRemoveBackground; rewrite Hcur;
    rewrite (enhanceWith_failure _ _ _ _ _ _ Hfail); cbn; auto 10.
Qed.

(** X23. A file above 5 MiB (5 242 880 bytes) is refused with a message
    and nothing else changes; a file of at most that size, the limit
    included, starts an upload that empties the store at once, and once it
    is read the state refers to a single image, the new original at angle 0,
    with the knob back at 0: nothing of the previous source survives. *)
Theorem upload_replaces_the_session (f : File) (base64 : string) (s : State) (w : World) :
  let started := handleFileChange (Some f) s in
  let loaded := fst (onloadend f base64 started w) in
  let source := mkSceneImage (uuids w) base64 (type f) 0 true in
  (5242880 < size f ->
   sequenceImages started = sequenceImages s /\ currentImage started = currentImage s
   /\ originalImage started = originalImage s /\ appState started = appState s
   /\ exists m, error started = Some m /\ m <> "")
  /\ (size f <= 5242880 ->
      sequenceImages started = [] /\ appState started = UPLOADING
      /\ error started = None
      /\ images loaded = [source; source; source]
      /\ targetAngle loaded = 0 /\ appState loaded = READY)
  /\ handleFileChange None s = s.
Proof.
  cbv zeta. unfold handleFileChange, onloadend.
  change (5 * 1024 * 1024) with 5242880.
  split; [|split; [|reflexivity]]; intros Hsize.
  - replace (size f >? 5242880) with true by (symmetry; apply Z.gtb_lt; lia).
    cbn. repeat split. eexists. split; [reflexivity | discriminate].
  - replace (size f >? 5242880) with false
      by (symmetry; rewrite Z.gtb_ltb; apply Z.ltb_ge; lia).
    cbn. repeat split.
Qed.

(** X24. Analysing the image never puts the application in the error
    state and never touches the images: with a source uploaded it sends one
    request for the original and returns to ready; a rejected request only
    sets a fixed message, and an answer without text stores a fixed
    description in place of the context. *)
Theorem analysis_always_returns_to_ready (s : State) (w : World) (original : SceneImage) :
  originalImage s = Some original ->
  let s' := fst (handleAutoContext s w) in
  let w' := snd (handleAutoContext s w) in
  appState s' = READY
  /\ sequenceImages s' = sequenceImages s /\ currentImage s' = currentImage s
  /\ originalImage s' = originalImage s
  /\ ncalls (trace w') = S (ncalls (trace w))
  /\ (forall m,
        remote w (ncalls (trace w)) = Rejected m ->
        error s' = Some "No se pudo analizar la imagen automáticamente."
        /\ contextPrompt s' = contextPrompt s)
  /\ (forall response,
        remote w (ncalls (trace w)) = Resolved response ->
        error s' = error s
        /\ contextPrompt s'
           = match truthy (response_text response) with
             | Some t => t
             | None => "No se pudo analizar la imagen."
             end).
Proof.
  intros Ho s' w'. subst s' w'. unfold handleAutoContext, analyzeImage, generateContent.
  rewrite Ho.
  assert (Hn : ncalls (trace (log (GenerateContent
                                      (mkRequest "gemini-2.5-flash" AnalysisPrompt
                                                 (mimeType original)
                                                 (base64Data (data original)))) w))
               = S (ncalls (trace w))).
  { unfold log. cbn [trace]. rewrite ncalls_app. cbn. lia. }
  destruct (remote w (ncalls (trace w))) as [m | response]; cbn [settle fst snd];
    (split; [reflexivity|]); (split; [reflexivity|]); (split; [reflexivity|]);
    (split; [exact Ho|]); (split; [exact Hn|]);
    split; intros x Hx; try discriminate Hx; injection Hx as <-; split; reflexivity.
Qed.

End Edges.

(** ** The further properties at sample inputs *)

Section MoreWitnesses.
Import GeminiService App Predicates Samples.

(** Half a turn of the wheel upwards from rest scale. *)
Lemma wheel_keeps_zoom_in_range_witness :
  (1 <= ImageDisplay.scale
          (ImageDisplay.handleWheel showingRight (-500 # 1) untouched) <= 5)%Q.
Proof.
  refine (proj1 (wheel_keeps_zoom_in_range showingRight (-500 # 1) untouched _)).
  cbn. lra.
Defined.

(** A press on the 90-degree view. *)
Lemma mouse_down_starts_at_displayed_image_witness :
  ImageDisplay.startIndex
    (ImageDisplay.handleMouseDown showingRight (ImageDisplay.mkMouseEvent 400 300)
                                  untouched) = 2.
Proof.
  destruct (mouse_down_starts_at_displayed_image
              showingRight (ImageDisplay.mkMouseEvent 400 300) untouched rightView
              eq_refl eq_refl eq_refl ltac:(discriminate))
    as [_ [_ [_ [H _]]]].
  destruct H as [x [Hx _]]; [exists rightView; split; [vm_compute; auto | reflexivity]|].
  reflexivity.
Defined.

(** A press and a move at the same place on the 90-degree view. *)
Lemma press_without_drag_witness :
  snd (ImageDisplay.handleMouseMove
         showingRight (ImageDisplay.mkMouseEvent 400 310)
         (ImageDisplay.handleMouseDown showingRight (ImageDisplay.mkMouseEvent 400 300)
                                       untouched)) = None.
Proof.
  refine (proj1 (press_without_drag
                   showingRight (ImageDisplay.mkMouseEvent 400 300)
                   (ImageDisplay.mkMouseEvent 400 310) untouched rightView
                   eq_refl eq_refl eq_refl _ eq_refl) _).
  - discriminate.
  - exists rightView. split; [vm_compute; auto | reflexivity].
Defined.

(** The pointer in the middle of the comparator. *)
Lemma slider_stays_on_the_image_witness :
  (ImageComparator.sliderPosition
     (ImageComparator.handleMouseMove
        (Some comparatorRect) (ImageComparator.Mouse 500)
        (ImageComparator.handleMouseDown ImageComparator.initial)) == 50)%Q.
Proof.
  destruct (slider_stays_on_the_image
              comparatorRect (ImageComparator.Mouse 500) ImageComparator.initial
              ltac:(reflexivity))
    as [_ [_ [_ [H _]]]].
  rewrite H; [reflexivity | cbn; lra].
Defined.

(** The knob at 90 degrees. *)
Lemma knob_label_agrees_with_description_witness :
  getAngleDescription exact (inject_Z 90) = PerfilDerecho.
Proof.
  refine (proj1 (proj2 (knob_label_agrees_with_description 90 _)) eq_refl).
  lia.
Defined.

(** The original and the 90-degree view get different file names. *)
Lemma download_named_by_angle_witness :
  ImageDisplay.downloadName source = "vision-ai-result.png"
  /\ ImageDisplay.downloadName rightView <> ImageDisplay.downloadName source.
Proof.
  destruct (download_named_by_angle showingRight rightView source)
    as [_ [H _]]; [cbn; lia | cbn; lia |].
  split; [reflexivity|]. intros E. apply H in E. discriminate E.
Defined.

(** The image of a mixed response, enhanced next. *)
Lemma next_request_carries_received_payload_witness :
  inline_data
    (enhanceRequest
       (mkSceneImage 1 "data:image/png;base64,iVBORw0KGgo=" "image/png" 100 false)
       "Mejorar Nitidez y Detalles" "")
  = "iVBORw0KGgo=".
Proof.
  assert (H : readSceneResponse mixedResponse = Ok "data:image/png;base64,iVBORw0KGgo="
              \/ readEnhanceResponse mixedResponse
                 = Ok "data:image/png;base64,iVBORw0KGgo=") by (left; reflexivity).
  assert (Hclean : forall d, firstImage mixedResponse = Some d ->
                             String.index 0 "base64," d = None)
    by (intros d [= <-]; reflexivity).
  destruct (next_request_carries_received_payload
              mixedResponse _ 1 100 100 false "Mejorar Nitidez y Detalles" "" H Hclean)
    as [H1 _].
  exact (f_equal (fun o => match o with Some x => x | None => "" end) H1).
Defined.

(** 100 degrees on a fresh store, answered with an image. *)
Lemma generated_variant_is_cached_witness :
  List.map angle
           (sequenceImages
              (fst (handleAngleRelease 100
                      (fst (run upload initial (world (failingAfter 1))))
                      (snd (run upload initial (world (failingAfter 1)))))))
  = [0; 100].
Proof.
  assert (Hfar : forall img,
             In img (sequenceImages (fst (run upload initial (world (failingAfter 1))))) ->
             10 <= Z.abs (angle img - 100)).
  { intros img [<- | []]. cbn. lia. }
  destruct (generated_variant_is_cached
              upload (world (failingAfter 1)) source 100 pngUrl
              eq_refl Hfar ltac:(lia) eq_refl)
    as [_ [H _]].
  exact (eq_trans (f_equal (List.map angle) H) eq_refl).
Defined.

(** 100 degrees on a fresh store, rejected. *)
Lemma failed_generation_changes_nothing_witness :
  error (fst (handleAngleRelease 100
                (fst (run upload initial (world (failingAfter 0))))
                (snd (run upload initial (world (failingAfter 0))))))
  = Some "429 RESOURCE_EXHAUSTED".
Proof.
  assert (Hfar : forall img,
             In img (sequenceImages (fst (run upload initial (world (failingAfter 0))))) ->
             10 <= Z.abs (angle img - 100)).
  { intros img [<- | []]. cbn. lia. }
  destruct (failed_generation_changes_nothing
              100 (fst (run upload initial (world (failingAfter 0))))
              (snd (run upload initial (world (failingAfter 0))))
              source "429 RESOURCE_EXHAUSTED" eq_refl Hfar ltac:(lia) eq_refl)
    as [_ [_ [_ [_ [H _]]]]].
  exact H.
Defined.

(** A sweep answered seven times. *)
Lemma complete_sweep_replaces_store_witness :
  List.map angle
           (sequenceImages
              (fst (handleGenerateSequence
                      (fst (run (upload ++ [AngleRelease 100]) initial
                                (world (failingAfter 8))))
                      (snd (run (upload ++ [AngleRelease 100]) initial
                                (world (failingAfter 8)))))))
  = [0; 45; 90; 135; 180; 225; 270; 315].
Proof.
  destruct (complete_sweep_replaces_store
              (upload ++ [AngleRelease 100]) (world (failingAfter 8)) source
              [pngUrl; pngUrl; pngUrl; pngUrl; pngUrl; pngUrl; pngUrl]
              eq_refl eq_refl ltac:(repeat split; reflexivity))
    as [_ [H _]].
  exact H.
Defined.

(** A session that ends on a rejected generation. *)
Lemma error_state_has_message_witness :
  exists m,
    error (fst (run (upload ++ [AngleRelease 100]) initial (world (failingAfter 0))))
    = Some m /\ m <> "".
Proof.
  exact (error_state_has_message (upload ++ [AngleRelease 100])
                                 (world (failingAfter 0)) eq_refl).
Defined.


(** Sharpening the fresh upload, rejected. *)
Lemma failed_enhancement_changes_nothing_witness :
  appState (fst (handleEnhancement "Mejorar Nitidez y Detalles" "Detalles"
                   (fst (run upload initial (world (failingAfter 0))))
                   (snd (run upload initial (world (failingAfter 0))))))
  = ERROR.
Proof.
  destruct (failed_enhancement_changes_nothing
              "Mejorar Nitidez y Detalles" "Detalles"
              (fst (run upload initial (world (failingAfter 0))))
              (snd (run upload initial (world (failingAfter 0))))
              source "429 RESOURCE_EXHAUSTED" eq_refl eq_refl _ (or_introl eq_refl))
    as [_ [_ [_ [H _]]]].
  exact H.
Defined.

(** Analysing the fresh upload. *)
Lemma analysis_always_returns_to_ready_witness :
  appState (fst (handleAutoContext (fst (run upload initial (world (failingAfter 0))))
                                   (snd (run upload initial (world (failingAfter 0))))))
  = READY.
Proof.
  exact (proj1 (analysis_always_returns_to_ready
                  (fst (run upload initial (world (failingAfter 0))))
                  (snd (run upload initial (world (failingAfter 0))))
                  source eq_refl)).
Defined.

End MoreWitnesses.
